(** * Reflex 1.9: ingestion and subscription-control core

  A shallow embedding of the Python sources of the repository:

  - [control/state_subscription_bridge.py]  (module [Bridge])
  - [polygon_api/websocket.py]              (module [WS])
  - [shared_mem/buffers.py]                 (module [Ring])
  - [pubsub/bus.py]                         (module [Bus])
  - [shared_mem/registry.py], [shared_mem/hydrator.py] (module [Mem])
  - [ingestion/quote_stream.py]             (module [QuoteStream])

  Conventions of the embedding.
  - Python [str] is [string]; the model covers ASCII text, which is what
    symbols, channel tags and state names are.
  - Python [float] is modelled by exact rationals ([Qc]): rounding of
    binary floating point is outside the model.  Wall-clock readings
    ([time.time()]) are passed in as arguments.
  - [dict] is [gmap], [set] is [gset]; an object mutated in place becomes
    a state value that every operation takes and returns.
  - Locks are not modelled: each method body runs under its lock, so the
    model describes one critical section at a time. *)

From Stdlib Require Import QArith Qcanon Ascii String.
From stdpp Require Import gmap strings list fin_maps sorting numbers.

Local Open Scope Z_scope.

(** Rational literals used by the sources. *)
Definition qc (n : Z) (d : positive) : Qc := Q2Qc (n # d).
Definition qz (n : Z) : Qc := Qc_of_Z n.

(* ===================================================================== *)
(** * Python string helpers *)
(* ===================================================================== *)

Module PyStr.

(** [str.upper()] on ASCII text: [a]..[z] go to [A]..[Z]. *)
Definition upper_ascii (c : ascii) : ascii :=
  let n := N_of_ascii c in
  if ((97 <=? n) && (n <=? 122))%N then ascii_of_N (n - 32) else c.

Fixpoint upper (s : string) : string :=
  match s with
  | EmptyString => EmptyString
  | String c s' => String (upper_ascii c) (upper s')
  end.

(** [str.lower()] on ASCII text. *)
Definition lower_ascii (c : ascii) : ascii :=
  let n := N_of_ascii c in
  if ((65 <=? n) && (n <=? 90))%N then ascii_of_N (n + 32) else c.

Fixpoint lower (s : string) : string :=
  match s with
  | EmptyString => EmptyString
  | String c s' => String (lower_ascii c) (lower s')
  end.

(** Characters removed by [str.strip()] with no argument (ASCII range):
    TAB, LF, VT, FF, CR, FS, GS, RS, US and space. *)
Definition is_space (c : ascii) : bool :=
  let n := N_of_ascii c in
  (((9 <=? n) && (n <=? 13)) || ((28 <=? n) && (n <=? 32)))%N.

Fixpoint lstrip (s : string) : string :=
  match s with
  | EmptyString => EmptyString
  | String c s' => if is_space c then lstrip s' else s
  end.

Definition rstrip (s : string) : string :=
  String.rev (lstrip (String.rev s)).

Definition strip (s : string) : string := rstrip (lstrip s).

(** [needle in hay] on strings. *)
Fixpoint contains (needle hay : string) : bool :=
  String.prefix needle hay
  || match hay with
     | EmptyString => false
     | String _ hay' => contains needle hay'
     end.

(** Truthiness of a string: non-empty. *)
Definition truthy (s : string) : bool :=
  match s with EmptyString => false | _ => true end.

(** [sorted(xs)] on strings: code-point lexicographic order. *)
Definition sorted (l : list string) : list string :=
  merge_sort String.le l.

(** [sep.join(xs)]. *)
Fixpoint join (sep : string) (l : list string) : string :=
  match l with
  | [] => ""
  | [x] => x
  | x :: rest => x +:+ sep +:+ join sep rest
  end.

End PyStr.

(* ===================================================================== *)
(** * control/state_subscription_bridge.py *)
(* ===================================================================== *)

Module Bridge.

Definition SRC_OVERRIDE : string := "override".
Definition SRC_EVAL : string := "evaluator".
Definition SRC_CHART : string := "chart".
Definition SRC_DB : string := "db".
Definition SOURCE_PRIORITY : list string :=
  [SRC_OVERRIDE; SRC_EVAL; SRC_CHART; SRC_DB].

Definition CHART_TTL_SEC : Qc := qz 45.

(** The fields of [StateSubscriptionBridge] that resolution, the pusher
    and the chart expirer read or write. *)
Record bridge := mkBridge {
  state_by_source : gmap string (gmap string string);
  chart_ts : gmap string Qc;
  eff_warm : gset string;
  eff_hot : gset string;
  push_evt : bool;
  chart_expired : nat;                       (* metrics["chart_expired"] *)
  push_out : nat;                            (* metrics["push_out"] *)
  control_out : list (string * list string)  (* (channel, symbols) published *)
}.

(** [__init__]: the four source maps exist and are empty. *)
Definition init : bridge :=
  {| state_by_source :=
       <[SRC_DB := ∅]> (<[SRC_EVAL := ∅]> (<[SRC_OVERRIDE := ∅]>
         (<[SRC_CHART := ∅]> ∅)));
     chart_ts := ∅; eff_warm := ∅; eff_hot := ∅; push_evt := false;
     chart_expired := 0%nat; push_out := 0%nat; control_out := [] |}.

(** [self.state_by_source[src]]; the four keys are always present, a
    missing key (a [KeyError] in Python) reads as the empty map. *)
Definition srcmap (b : bridge) (src : string) : gmap string string :=
  default ∅ (state_by_source b !! src).

(** [now - ts > CHART_TTL_SEC] with [ts = self.chart_ts.get(sym, 0.0)]. *)
Definition chart_stale (b : bridge) (now : Qc) (sym : string) : bool :=
  bool_decide (CHART_TTL_SEC < now - default (qz 0) (chart_ts b !! sym))%Qc.

(** The [for src in SOURCE_PRIORITY] loop of [_effective_state_for]. *)
Fixpoint resolve (b : bridge) (now : Qc) (sym : string)
    (srcs : list string) : string :=
  match srcs with
  | [] => "COLD"
  | src :: rest =>
      match srcmap b src !! sym with
      | None => resolve b now sym rest
      | Some st =>
          if bool_decide (src = SRC_CHART) && chart_stale b now sym
          then resolve b now sym rest
          else st
      end
  end.

Definition _effective_state_for (b : bridge) (now : Qc) (sym : string)
    : string :=
  resolve b now sym SOURCE_PRIORITY.

(** [_compute_effective]; [clock sym] is the reading of [time.time()]
    made while [sym] is resolved. *)
Definition all_symbols (b : bridge) : gset string :=
  map_fold (λ _ srcmap acc, acc ∪ dom srcmap) ∅ (state_by_source b).

Definition _compute_effective (b : bridge) (clock : string → Qc)
    : gset string * gset string :=
  let symbols := all_symbols b in
  let warm := filter (λ sym, _effective_state_for b (clock sym) sym = "WARM")
                     symbols in
  let hot := filter (λ sym, _effective_state_for b (clock sym) sym = "HOT")
                    symbols in
  (warm, hot).

(** [_publish_control] then [_recompute_and_push]. *)
Definition _publish_control (hot warmhot : gset string) (b : bridge)
    : bridge :=
  let hot_list := PyStr.sorted (elements hot) in
  let warmhot_list := PyStr.sorted (elements warmhot) in
  {| state_by_source := state_by_source b; chart_ts := chart_ts b;
     eff_warm := eff_warm b; eff_hot := eff_hot b; push_evt := push_evt b;
     chart_expired := chart_expired b; push_out := push_out b;
     control_out := control_out b ++ [("T", hot_list); ("Q", warmhot_list)] |}.

Definition _recompute_and_push (clock : string → Qc) (b : bridge) : bridge :=
  let '(new_warm, new_hot) := _compute_effective b clock in
  if bool_decide (new_warm ≠ eff_warm b) || bool_decide (new_hot ≠ eff_hot b)
  then
    let b1 :=
      {| state_by_source := state_by_source b; chart_ts := chart_ts b;
         eff_warm := new_warm; eff_hot := new_hot; push_evt := push_evt b;
         chart_expired := chart_expired b; push_out := push_out b;
         control_out := control_out b |} in
    let b2 := _publish_control new_hot (new_warm ∪ new_hot) b1 in
    {| state_by_source := state_by_source b2; chart_ts := chart_ts b2;
       eff_warm := eff_warm b2; eff_hot := eff_hot b2;
       push_evt := push_evt b2; chart_expired := chart_expired b2;
       push_out := S (push_out b2); control_out := control_out b2 |}
  else b.

(** One iteration of the [while] loop of [_chart_ttl_loop] (the body of
    the [try]; the loop then sleeps one second and repeats). *)
Definition expired_keys (b : bridge) (now : Qc) : list string :=
  (filter (λ kv, (CHART_TTL_SEC < now - kv.2)%Qc) (map_to_list (chart_ts b))).*1.

Definition pop_chart (b : bridge) (s : string) : bridge :=
  {| state_by_source :=
       <[SRC_CHART := delete s (srcmap b SRC_CHART)]> (state_by_source b);
     chart_ts := delete s (chart_ts b);
     eff_warm := eff_warm b; eff_hot := eff_hot b; push_evt := push_evt b;
     chart_expired := chart_expired b; push_out := push_out b;
     control_out := control_out b |}.

Definition _chart_ttl_iter (now : Qc) (b : bridge) : bridge :=
  let expired := expired_keys b now in
  match expired with
  | [] => b
  | _ :: _ =>
      let b1 := foldl pop_chart b expired in
      {| state_by_source := state_by_source b1; chart_ts := chart_ts b1;
         eff_warm := eff_warm b1; eff_hot := eff_hot b1;
         push_evt := true;                       (* _schedule_push *)
         chart_expired := chart_expired b1 + length expired;
         push_out := push_out b1; control_out := control_out b1 |}
  end.

(** ** Reference definitions from section 8 of the specification *)

(** [first_present(override, evaluator, chart, db)(S)]: the entry of the
    first map, in that order, that has [S]. *)
Definition first_present (override evaluator chart db : gmap string string)
    (sym : string) : option string :=
  override !! sym ∪ evaluator !! sym ∪ chart !! sym ∪ db !! sym.

(** A chart entry is fresh at [now] when its timestamp is recorded and
    [now - chart_ts[S] <= TTL]. *)
Definition chart_fresh (b : bridge) (now : Qc) (sym : string) : Prop :=
  ∃ ts, chart_ts b !! sym = Some ts ∧ (now - ts ≤ CHART_TTL_SEC)%Qc.

(** A chart timestamp older than TTL at [now]. *)
Definition chart_old (b : bridge) (now : Qc) (sym : string) : Prop :=
  ∃ ts, chart_ts b !! sym = Some ts ∧ (CHART_TTL_SEC < now - ts)%Qc.

(** ** A small bridge used for closed examples

    override: AAPL is COLD; evaluator: NVDA is WARM; chart: TSLA is HOT
    (asserted at t = 100) and AAPL is HOT (asserted at t = 130);
    db: AAPL is HOT, MSFT is WARM. *)
Definition sample : bridge :=
  {| state_by_source :=
       <[SRC_DB := <["AAPL" := "HOT"]> (<["MSFT" := "WARM"]> ∅)]>
       (<[SRC_EVAL := <["NVDA" := "WARM"]> ∅]>
       (<[SRC_OVERRIDE := <["AAPL" := "COLD"]> ∅]>
       (<[SRC_CHART := <["TSLA" := "HOT"]> (<["AAPL" := "HOT"]> ∅)]> ∅)));
     chart_ts := <["TSLA" := qz 100]> (<["AAPL" := qz 130]> ∅);
     eff_warm := ∅; eff_hot := ∅; push_evt := false;
     chart_expired := 0%nat; push_out := 0%nat; control_out := [] |}.

End Bridge.

(* ===================================================================== *)
(** * polygon_api/websocket.py *)
(* ===================================================================== *)

Module WS.

(** The two-key dict built by [_make_sub_msg] / [_make_unsub_msg]. *)
Record payload := mkPayload { action : string; params : string }.

Global Instance payload_eq_dec : EqDecision payload.
Proof. solve_decision. Defined.

(** [",".join(f"{channel}.{s}" for s in symbols)]. *)
Definition join_params (symbols : list string) (channel : string) : string :=
  PyStr.join "," (map (λ s, channel +:+ "." +:+ s) symbols).

Definition _make_sub_msg (symbols : list string) (channel : string)
    : payload :=
  {| action := "subscribe"; params := join_params symbols channel |}.

Definition _make_unsub_msg (symbols : list string) (channel : string)
    : payload :=
  {| action := "unsubscribe"; params := join_params symbols channel |}.

(** The fields of [PolygonWebSocketClient] used by the subscription
    methods.  [_sendq] holds the payloads in FIFO order (the code stores
    their JSON text); [enqueued] is the history of every payload handed
    to [_enqueue], [dropped] the payloads logged as dropped. *)
Record client := mkClient {
  _subs : gmap string (gset string);
  _sendq : list payload;
  max_send_queue : Z;
  enqueued : list payload;
  dropped : list payload
}.

(** [__init__]. *)
Definition init (max_send_queue : Z) : client :=
  {| _subs := <["T" := ∅]> (<["Q" := ∅]> (<["A" := ∅]> ∅));
     _sendq := []; max_send_queue := max_send_queue;
     enqueued := []; dropped := [] |}.

(** [queue.Queue.full()]: a [maxsize] of zero or less is unbounded. *)
Definition queue_full (c : client) : bool :=
  bool_decide (0 < max_send_queue c) &&
  bool_decide (max_send_queue c ≤ Z.of_nat (length (_sendq c))).

(** [_enqueue]: [put_nowait], or log and drop when the queue is full. *)
Definition _enqueue (p : payload) (c : client) : client :=
  if queue_full c then
    {| _subs := _subs c; _sendq := _sendq c;
       max_send_queue := max_send_queue c;
       enqueued := enqueued c ++ [p]; dropped := dropped c ++ [p] |}
  else
    {| _subs := _subs c; _sendq := _sendq c ++ [p];
       max_send_queue := max_send_queue c;
       enqueued := enqueued c ++ [p]; dropped := dropped c |}.

(** [{s.strip().upper() for s in symbols if s and s.strip()}]. *)
Definition normalize (symbols : list string) : gset string :=
  list_to_set
    (map (λ s, PyStr.upper (PyStr.strip s))
         (filter (λ s, PyStr.truthy s && PyStr.truthy (PyStr.strip s) = true)
                 symbols)).

Definition set_subs (channel : string) (v : gset string) (c : client)
    : client :=
  {| _subs := <[channel := v]> (_subs c); _sendq := _sendq c;
     max_send_queue := max_send_queue c;
     enqueued := enqueued c; dropped := dropped c |}.

(** [self._subs.setdefault(channel, set())]. *)
Definition setdefault_subs (channel : string) (c : client)
    : gset string * client :=
  match _subs c !! channel with
  | Some v => (v, c)
  | None => (∅, set_subs channel ∅ c)
  end.

Definition replace_with (symbols : list string) (channel : string)
    (c : client) : client :=
  let target := normalize symbols in
  let '(current, c) := setdefault_subs channel c in
  let add := PyStr.sorted (elements (target ∖ current)) in
  let rem := PyStr.sorted (elements (current ∖ target)) in
  let c := match rem with
           | [] => c
           | _ :: _ => _enqueue (_make_unsub_msg rem channel) c
           end in
  let c := match add with
           | [] => c
           | _ :: _ => _enqueue (_make_sub_msg add channel) c
           end in
  set_subs channel target c.

(** The messages a diff gives rise to: an unsubscribe for [rem] if it is
    not empty, then a subscribe for [add] if it is not empty. *)
Definition diff_msgs (rem add : list string) (channel : string)
    : list payload :=
  (match rem with [] => [] | _ :: _ => [_make_unsub_msg rem channel] end)
  ++ (match add with [] => [] | _ :: _ => [_make_sub_msg add channel] end).

(** A list that enumerates a set in sorted order, without repetition. *)
Definition lists_set (l : list string) (X : gset string) : Prop :=
  (∀ s, s ∈ l ↔ s ∈ X) ∧ NoDup l ∧ Sorted String.le l.

(** The send queue takes [n] more messages without dropping. *)
Definition has_room (c : client) (n : nat) : Prop :=
  max_send_queue c ≤ 0
  ∨ Z.of_nat (length (_sendq c)) + Z.of_nat n ≤ max_send_queue c.

(** A symbol as section 3 of the specification has it: non-empty, no
    surrounding blanks, already upper case. *)
Definition is_symbol (s : string) : Prop :=
  PyStr.truthy s = true ∧ PyStr.strip s = s ∧ PyStr.upper s = s.

(** A client subscribed to AAPL and MSFT on channel T, with an
    unbounded send queue already holding the auth message. *)
Definition sample : client :=
  {| _subs := <["T" := {["AAPL"; "MSFT"]}]> (<["Q" := ∅]> (<["A" := ∅]> ∅));
     _sendq := [{| action := "auth"; params := "key" |}];
     max_send_queue := 10000;
     enqueued := [{| action := "auth"; params := "key" |}];
     dropped := [] |}.

(** ** The other subscription methods *)

(** [[s.strip().upper() for s in symbols if s and s.strip()]]. *)
Definition clean_list (symbols : list string) : list string :=
  map (λ s, PyStr.upper (PyStr.strip s))
      (filter (λ s, PyStr.truthy s && PyStr.truthy (PyStr.strip s) = true)
              symbols).

(** [self._subs.get(channel, set())]. *)
Definition subs_get (channel : string) (c : client) : gset string :=
  default ∅ (_subs c !! channel).

Definition subscribe_symbol (symbol channel : string) (c : client)
    : client :=
  let s := PyStr.upper (PyStr.strip symbol) in
  if negb (PyStr.truthy s) then c else
  let '(current, c) := setdefault_subs channel c in
  if bool_decide (s ∈ current) then c
  else _enqueue (_make_sub_msg [s] channel)
                (set_subs channel (current ∪ {[s]}) c).

Definition unsubscribe_symbol (symbol channel : string) (c : client)
    : client :=
  let s := PyStr.upper (PyStr.strip symbol) in
  if negb (PyStr.truthy s) then c else
  if bool_decide (s ∈ subs_get channel c)
  then _enqueue (_make_unsub_msg [s] channel)
                (set_subs channel (subs_get channel c ∖ {[s]}) c)
  else c.

Definition subscribe_many (symbols : list string) (channel : string)
    (c : client) : client :=
  let syms := clean_list symbols in
  match syms with
  | [] => c
  | _ :: _ =>
      let '(current, c) := setdefault_subs channel c in
      let new := filter (λ s, s ∉ current) syms in
      match new with
      | [] => c
      | _ :: _ =>
          _enqueue (_make_sub_msg new channel)
                   (set_subs channel (current ∪ list_to_set new) c)
      end
  end.

(** [for s in rem: self._subs[channel].remove(s)]: [set.remove] raises
    [KeyError] for an element that is not (or no longer) in the set; the
    set keeps the removals made before that.  The flag tells whether the
    loop completed. *)
Fixpoint remove_each (rem : list string) (cur : gset string)
    : bool * gset string :=
  match rem with
  | [] => (true, cur)
  | s :: rest =>
      if bool_decide (s ∈ cur) then remove_each rest (cur ∖ {[s]})
      else (false, cur)
  end.

(** [unsubscribe_many]; the flag is [false] when the call ends in the
    [KeyError] of [remove_each]. *)
Definition unsubscribe_many (symbols : list string) (channel : string)
    (c : client) : bool * client :=
  let syms := clean_list symbols in
  match syms with
  | [] => (true, c)
  | _ :: _ =>
      let rem := filter (λ s, s ∈ subs_get channel c) syms in
      match rem with
      | [] => (true, c)
      | _ :: _ =>
          let '(ok, remaining) := remove_each rem (subs_get channel c) in
          let c := set_subs channel remaining c in
          if ok then (true, _enqueue (_make_unsub_msg rem channel) c)
          else (false, c)
      end
  end.

(** [subscribed(channel)]: a copy of one channel's set, or of all. *)
Definition subscribed (channel : option string) (c : client)
    : gmap string (gset string) :=
  match channel with
  | Some ch => if PyStr.truthy ch then {[ ch := subs_get ch c ]} else _subs c
  | None => _subs c
  end.

(** [_resub_all].  [order] stands for the key order of the [_subs] dict
    (its insertion order), which the map of the model does not record. *)
Definition _resub_all (order : list string) (c : client) : client :=
  foldl (λ c ch,
           match _subs c !! ch with
           | Some syms =>
               match PyStr.sorted (elements syms) with
               | [] => c
               | l => _enqueue (_make_sub_msg l ch) c
               end
           | None => c
           end) c order.

(** A sequence of [_enqueue] calls. *)
Definition enqueue_all (ps : list payload) (c : client) : client :=
  foldl (λ c p, _enqueue p c) c ps.

(** The subscribe messages that restore a subscription table: one for
    each channel of [order] whose set is not empty, with its symbols
    sorted. *)
Definition resub_msgs (order : list string)
    (subs : gmap string (gset string)) : list payload :=
  order ≫= (λ ch,
    match subs !! ch with
    | Some syms =>
        match PyStr.sorted (elements syms) with
        | [] => []
        | l => [_make_sub_msg l ch]
        end
    | None => []
    end).

(** [_on_open]: the auth message goes through the same queue. *)
Definition _on_open (api_key : string) (c : client) : client :=
  _enqueue {| action := "auth"; params := api_key |} c.

(** ** The runner: [_run_forever] and [_spawn_ws]

    One connection attempt of the script is what the environment does
    while [self._wsapp.run_forever(...)] blocks: whether the stop event
    is set when it returns, and the draw of [random.uniform]. *)
Record attempt := mkAttempt {
  stop_after : bool;
  draw : Qc            (* random.random(), in [0, 1) *)
}.

Inductive event :=
| Connecting (attempt_no : Z)     (* "Connecting %s (attempt %d)" *)
| Stopped                         (* "WS stopped (reconnect=%s)." *)
| Sleep (slp : Z) (jitter : Qc).  (* time.sleep(slp + jitter) *)

Record runner_cfg := mkCfg { max_backoff : Z; reconnect : bool }.

(** [random.uniform(a, b)] is [a + (b - a) * random()]. *)
Definition uniform (a b u : Qc) : Qc := (a + (b - a) * u)%Qc.

(** [_run_forever].  The body of the [while] ends in [break] or in
    [return] after [_spawn_ws()], so a call makes at most one attempt;
    [_spawn_ws] starts a new thread on [_run_forever], which is the
    recursive call here.  An empty script means the connection of this
    runner is still open. *)
Fixpoint _run_forever (cfg : runner_cfg) (stop_evt : bool)
    (script : list attempt) : list event :=
  let backoff := 1 in
  let _connect_attempts := 0 in
  if stop_evt then [] else
  match script with
  | [] => []
  | a :: rest =>
      let _connect_attempts := _connect_attempts + 1 in
      Connecting _connect_attempts ::
      if stop_after a || negb (reconnect cfg) then [Stopped]
      else
        let slp := Z.min backoff (max_backoff cfg) in
        let jitter := uniform (qz 0) (qz slp * qc 2 10)%Qc (draw a) in
        let backoff := Z.min (backoff * 2) (max_backoff cfg) in
        Sleep slp jitter :: _run_forever cfg false rest
  end.

(** The base delays slept, in order. *)
Definition delays (tr : list event) : list Z :=
  omap (λ e, match e with Sleep slp _ => Some slp | _ => None end) tr.

Definition attempt_numbers (tr : list event) : list Z :=
  omap (λ e, match e with Connecting n => Some n | _ => None end) tr.

(** The schedule the class docstring announces ("exp backoff"):
    the delay before retry [n] (counted from zero) is
    [min(2^n, max_backoff)]. *)
Definition doubling_delay (max_backoff : Z) (n : nat) : Z :=
  Z.min (2 ^ Z.of_nat n) max_backoff.

(** The default configuration ([max_backoff = 60], [reconnect = True])
    and a run of three connection attempts that all fail while no stop
    is requested. *)
Definition default_cfg : runner_cfg :=
  {| max_backoff := 60; reconnect := true |}.

Definition failing (n : nat) : list attempt :=
  replicate n {| stop_after := false; draw := qc 1 2 |}.

End WS.

(* ===================================================================== *)
(** * shared_mem/buffers.py *)
(* ===================================================================== *)

Module Ring.
Section ring.
Context {A : Type}.

(** [collections.deque(maxlen=n).append(x)]: append on the right, then
    drop one item on the left when the length exceeds [maxlen]. *)
Definition deque_append (maxlen : nat) (d : list A) (x : A) : list A :=
  let d' := d ++ [x] in
  if (maxlen <? length d')%nat then tail d' else d'.

Record buffer := mkBuffer {
  _active : list A;
  _drain : list A;
  _maxlen : nat
}.

(** [DoubleRingBuffer(capacity)]. *)
Definition new (capacity : nat) : buffer :=
  {| _active := []; _drain := []; _maxlen := capacity |}.

Definition append (item : A) (b : buffer) : buffer :=
  {| _active := deque_append (_maxlen b) (_active b) item;
     _drain := _drain b; _maxlen := _maxlen b |}.

(** [drain]: swap, copy the swapped-out deque, clear it. *)
Definition drain (b : buffer) : list A * buffer :=
  let b1 := {| _active := _drain b; _drain := _active b;
               _maxlen := _maxlen b |} in
  let items := _drain b1 in
  (items, {| _active := _active b1; _drain := []; _maxlen := _maxlen b1 |}).

Definition get_short (b : buffer) : list A * buffer := drain b.

Definition len (b : buffer) : nat := length (_active b).

(** A caller's interleaving of [append] and [drain]. *)
Inductive op := Append (x : A) | Drain.

(** Runs the calls in order; returns the results of the [drain] calls,
    in call order, and the final buffer. *)
Fixpoint run (ops : list op) (b : buffer) : list (list A) * buffer :=
  match ops with
  | [] => ([], b)
  | Append x :: rest => run rest (append x b)
  | Drain :: rest =>
      let '(items, b') := drain b in
      let '(outs, b'') := run rest b' in
      (items :: outs, b'')
  end.

(** The append sequence of an interleaving. *)
Definition appended (ops : list op) : list A :=
  omap (λ o, match o with Append x => Some x | Drain => None end) ops.

(** The items appended between consecutive [drain] calls: one segment
    per [drain], starting from [cur], the items appended so far. *)
Fixpoint segments (cur : list A) (ops : list op) : list (list A) :=
  match ops with
  | [] => []
  | Append x :: rest => segments (cur ++ [x]) rest
  | Drain :: rest => cur :: segments [] rest
  end.

(** The items appended since the last [drain] of an interleaving. *)
Fixpoint pending (cur : list A) (ops : list op) : list A :=
  match ops with
  | [] => cur
  | Append x :: rest => pending (cur ++ [x]) rest
  | Drain :: rest => pending [] rest
  end.

(** The last [n] items of a list. *)
Definition last_n (n : nat) (l : list A) : list A :=
  drop (length l - n) l.

(** Section 8 of the specification, read on sequences: the items
    returned by all the [drain] calls together are the items of a suffix
    of the append sequence. *)
Definition drains_are_suffix (capacity : nat) (ops : list op) : Prop :=
  ∃ suf, suf `suffix_of` appended ops
         ∧ concat (run ops (new capacity)).1 ≡ₚ suf.

End ring.
Arguments buffer : clear implicits.
Arguments op : clear implicits.

(** An interleaving on a buffer of capacity 1: the second and third
    appends happen between two drains. *)
Definition evicting : list (op nat) :=
  [Append 1%nat; Drain; Append 2%nat; Append 3%nat; Drain].

End Ring.

(* ===================================================================== *)
(** * pubsub/bus.py *)
(* ===================================================================== *)

Module Bus.
Section bus.
(** [M]: messages; [W]: whatever state the subscriber callbacks act on;
    [E]: exceptions. *)
Context {M W E : Type}.

Inductive outcome := Returned | Raised (e : E).

(** A subscriber: runs on a message, changes its state, and returns or
    raises. *)
Definition callback : Type := M → W → outcome * W.

Record bus := mkBus {
  _subs : gmap string (list callback);
  _queue : list (string * M)
}.

Definition new : bus := {| _subs := ∅; _queue := [] |}.

(** [self._subs[topic]] on a [defaultdict(list)]: a missing topic is
    inserted with an empty list. *)
Definition subs_getitem (topic : string) (b : bus) : list callback * bus :=
  match _subs b !! topic with
  | Some cbs => (cbs, b)
  | None => ([], {| _subs := <[topic := []]> (_subs b); _queue := _queue b |})
  end.

(** [for cb in cbs: cb(message)]: stops at the first callback that
    raises.  The first component counts the callbacks invoked. *)
Fixpoint run_callbacks (cbs : list callback) (message : M) (w : W)
    : nat * outcome * W :=
  match cbs with
  | [] => (0%nat, Returned, w)
  | cb :: rest =>
      match cb message w with
      | (Returned, w') =>
          let '(n, r, w'') := run_callbacks rest message w' in
          (S n, r, w'')
      | (Raised e, w') => (1%nat, Raised e, w')
      end
  end.

Record published := mkPublished {
  result : outcome;       (* what the caller of [publish] sees *)
  invoked : nat;          (* callbacks invoked *)
  bus_after : bus;
  world_after : W
}.

Definition publish (topic : string) (message : M) (b : bus) (w : W)
    : published :=
  let '(cbs, b) := subs_getitem topic b in
  match run_callbacks cbs message w with
  | (n, Returned, w') =>
      {| result := Returned; invoked := n;
         bus_after := {| _subs := _subs b;
                         _queue := _queue b ++ [(topic, message)] |};
         world_after := w' |}
  | (n, Raised e, w') =>
      {| result := Raised e; invoked := n; bus_after := b;
         world_after := w' |}
  end.

Definition subscribe (topic : string) (cb : callback) (b : bus) : bus :=
  let '(cbs, b) := subs_getitem topic b in
  {| _subs := <[topic := cbs ++ [cb]]> (_subs b); _queue := _queue b |}.

(** [list(self._queue)[-limit:]]. *)
Definition get_recent (limit : nat) (b : bus) : list (string * M) :=
  match limit with
  | O => _queue b
  | _ => drop (length (_queue b) - limit) (_queue b)
  end.

(** A sequence of [publish] calls, by callers that go on after an
    exception. *)
Definition publish_all (msgs : list (string * M)) (b : bus) (w : W)
    : bus * W :=
  foldl (λ (s : bus * W) (tm : string * M),
           let r := publish tm.1 tm.2 s.1 s.2 in
           (bus_after r, world_after r)) (b, w) msgs.

(** No subscriber of the bus ever raises. *)
Definition never_raise (b : bus) : Prop :=
  ∀ topic cbs, _subs b !! topic = Some cbs →
    Forall (λ cb : callback, ∀ m w, (cb m w).1 = Returned) cbs.

End bus.
Arguments bus : clear implicits.
Arguments callback : clear implicits.
Arguments outcome : clear implicits.
Arguments published : clear implicits.

(** Section 4.4 of the specification, failure mode: whatever the
    subscribers do, [publish] returns normally, has invoked every
    subscriber of the topic, and has appended the message to the
    history. *)
Definition isolates_failures {M W E} (topic : string) (message : M)
    (b : bus M W E) (w : W) : Prop :=
  let r := publish topic message b w in
  result r = Returned
  ∧ invoked r = length (default [] (_subs b !! topic))
  ∧ _queue (bus_after r) = _queue b ++ [(topic, message)].

(** Three subscribers that record their number in a call log; the
    second one raises after recording. *)
Definition logs (i : nat) : callback string (list nat) string :=
  λ _ w, (Returned, w ++ [i]).
Definition fails (i : nat) : callback string (list nat) string :=
  λ _ w, (Raised "boom", w ++ [i]).

Definition three_subscribers : bus string (list nat) string :=
  subscribe "events" (logs 3)
    (subscribe "events" (fails 2) (subscribe "events" (logs 1) new)).

End Bus.

(* ===================================================================== *)
(** * Python values in event and quote dicts *)
(* ===================================================================== *)

#[warnings="-register-all"]
Inductive pyval :=
| PNone
| PBool (b : bool)
| PInt (z : Z)
| PFloat (q : Qc)
| PStr (s : string)
| PList (l : list pyval).

(** What the model leaves open about the builtins: how [float] and [int]
  read a string, and the text [str] gives for a value that is not a
  string.  Every statement below holds for all such readings. *)
Class PyConv := {
str_to_float : string → option Qc;
str_to_int : string → option Z;
repr : pyval → string
}.

(** A reading that accepts no string; used for closed examples, whose
  numeric fields hold numbers. *)
Definition strict_conv : PyConv :=
{| str_to_float := λ _, None; str_to_int := λ _, None; repr := λ _, "" |}.

Section builtins.
Context {pc : PyConv}.

(** [float(v)]; [None] stands for the exception raised. *)
Definition py_float (v : pyval) : option Qc :=
  match v with
  | PBool b => Some (if b then qz 1 else qz 0)
  | PInt z => Some (qz z)
  | PFloat q => Some q
  | PStr s => str_to_float s
  | PNone | PList _ => None
  end.

(** [int(v)]: a float is truncated towards zero. *)
Definition py_int (v : pyval) : option Z :=
  match v with
  | PBool b => Some (if b then 1 else 0)
  | PInt z => Some z
  | PFloat q => Some (Z.quot (Qnum (this q)) (Z.pos (Qden (this q))))
  | PStr s => str_to_int s
  | PNone | PList _ => None
  end.

(** [str(v)]. *)
Definition py_str (v : pyval) : string :=
  match v with
  | PStr s => s
  | _ => repr v
  end.

(** [isinstance(v, int)] ([bool] is a subclass of [int]). *)
Definition is_int (v : pyval) : bool :=
  match v with PInt _ | PBool _ => true | _ => false end.

Definition is_list (v : pyval) : bool :=
  match v with PList _ => true | _ => false end.
End builtins.

(** [d.get(k, default)]. *)
Definition dict_get {V} (d : gmap string V) (k : string) (dflt : V) : V :=
default dflt (d !! k).

(* ===================================================================== *)
(** * control/state_subscription_bridge.py: source payloads *)
(* ===================================================================== *)

Module BridgeIO.
Import Bridge.

Definition VALID_STATES : gset string := {["COLD"; "WARM"; "HOT"]}.

(** An element of a batch: a JSON object, or [None] for any other JSON
    value (on which [it.get] raises [AttributeError]). *)
Definition item : Type := option (gmap string pyval).

(** A decoded payload object: its keys other than ["batch"], and the value
    under ["batch"]: absent, present but not a list, or a list. *)
Record payload := mkPayload {
  fields : gmap string pyval;
  batch : option (option (list item))
}.

(** [self.state_by_source[source][sym] = st], preceded by
    [self.chart_ts[sym] = now] for the chart source. *)
Definition assert_state (source : string) (now : Qc) (sym st : string)
    (b : bridge) : bridge :=
  {| state_by_source :=
       <[source := <[sym := st]> (srcmap b source)]> (state_by_source b);
     chart_ts := if bool_decide (source = SRC_CHART)
                 then <[sym := now]> (chart_ts b) else chart_ts b;
     eff_warm := eff_warm b; eff_hot := eff_hot b; push_evt := push_evt b;
     chart_expired := chart_expired b; push_out := push_out b;
     control_out := control_out b |}.

Definition _schedule_push (b : bridge) : bridge :=
  {| state_by_source := state_by_source b; chart_ts := chart_ts b;
     eff_warm := eff_warm b; eff_hot := eff_hot b; push_evt := true;
     chart_expired := chart_expired b; push_out := push_out b;
     control_out := control_out b |}.

Section payloads.
Context {pc : PyConv}.

(** [str(it.get(key, "")).upper().strip()]. *)
Definition item_text (it : gmap string pyval) (key : string) : string :=
  PyStr.strip (PyStr.upper (py_str (dict_get it key (PStr "")))).

(** The [for it in items] loop.  Result: whether the loop completed (no
    exception), the bridge, and the [changed] flag. *)
Fixpoint apply_items (source : string) (now : Qc) (items : list item)
    (b : bridge) (changed : bool) : bool * bridge * bool :=
  match items with
  | [] => (true, b, changed)
  | None :: _ => (false, b, changed)
  | Some it :: rest =>
      let sym := item_text it "symbol" in
      let st := item_text it "state" in
      if negb (PyStr.truthy sym) || bool_decide (st ∉ VALID_STATES)
      then apply_items source now rest b changed
      else apply_items source now rest (assert_state source now sym st b) true
  end.

(** The items a payload stands for; [None] for a payload that is
    ignored with a warning. *)
Definition payload_items (p : payload) : option (list item) :=
  match batch p with
  | Some (Some l) => Some l
  | _ =>
      if bool_decide (is_Some (fields p !! "symbol"))
         && bool_decide (is_Some (fields p !! "state"))
      then Some [Some (fields p)] else None
  end.

(** [_apply_source_payload]; [now] is the reading of [time.time()].  The
    flag is [false] when the call raises. *)
Definition _apply_source_payload (source : string) (p : payload) (now : Qc)
    (b : bridge) : bool * bridge :=
  match payload_items p with
  | None => (true, b)
  | Some items =>
      match apply_items source now items b false with
      | (true, b', changed) =>
          (true, if changed then _schedule_push b' else b')
      | (false, b', _) => (false, b')
      end
  end.

End payloads.

(** One iteration of the [while] loop of [_pusher_loop]: when the push
    event is set (and after the debounce sleep), clear it and recompute. *)
Definition _pusher_iter (clock : string → Qc) (b : bridge) : bridge :=
  if push_evt b then
    _recompute_and_push clock
      {| state_by_source := state_by_source b; chart_ts := chart_ts b;
         eff_warm := eff_warm b; eff_hot := eff_hot b; push_evt := false;
         chart_expired := chart_expired b; push_out := push_out b;
         control_out := control_out b |}
  else b.

(** Every stored state is one of COLD, WARM, HOT, and every chart entry
    has a timestamp. *)
Definition well_formed (b : bridge) : Prop :=
  (∀ src s st, srcmap b src !! s = Some st → st ∈ VALID_STATES)
  ∧ dom (srcmap b SRC_CHART) ⊆ dom (chart_ts b).

(** The payload [{"symbol": sym, "state": st}]. *)
Definition single (sym st : string) : payload :=
  {| fields := <["symbol" := PStr sym]> (<["state" := PStr st]> ∅);
     batch := None |}.

End BridgeIO.

(* ===================================================================== *)
(** * shared_mem/registry.py and shared_mem/hydrator.py *)
(* ===================================================================== *)

Module Mem.

Definition MODE_COLD : string := "COLD".
Definition MODE_WATCH : string := "WATCH".
Definition MODE_WARM : string := "WARM".
Definition MODE_HOT : string := "HOT".

(** The per-symbol dict; its six keys are the ones [_ensure] creates. *)
Record symrec := mkRec {
  mode : string;
  flags : gmap string pyval;
  last_update : pyval;
  last_price : option Qc;          (* [None] or a float *)
  last_quote : pyval;
  snapshot : gmap string Qc
}.

Definition default_snapshot : gmap string Qc :=
  <["spread" := qz 0]> (<["mid" := qz 0]> (<["bid_sz" := qz 0]>
    (<["ask_sz" := qz 0]> (<["imbalance" := qz 0]>
      (<["pressure" := qz 0]> ∅))))).

(** The dict literal of [_ensure]. *)
Definition default_record : symrec :=
  {| mode := MODE_COLD; flags := ∅; last_update := PNone;
     last_price := None; last_quote := PNone;
     snapshot := default_snapshot |}.

(** [_Registry._data]. *)
Definition registry : Type := gmap string symrec.

(** Methods of [_Registry] take the registry and return their result
    with the registry they leave behind. *)
Definition _ensure (symbol : string) (reg : gmap string symrec)
    : symrec * gmap string symrec :=
  let s := PyStr.upper symbol in
  match reg !! s with
  | Some r => (r, reg)
  | None => (default_record, <[s := default_record]> reg)
  end.

Definition getitem (symbol : string) (reg : gmap string symrec)
    : symrec * gmap string symrec :=
  _ensure symbol reg.

Definition setitem (symbol : string) (value : symrec)
    (reg : gmap string symrec) : gmap string symrec :=
  <[PyStr.upper symbol := value]> reg.

Definition contains (symbol : string) (reg : gmap string symrec)
    : bool * gmap string symrec :=
  let s := PyStr.upper symbol in
  (bool_decide (is_Some (reg !! s)), reg).

Definition with_mode (m : string) (r : symrec) : symrec :=
  {| mode := m; flags := flags r; last_update := last_update r;
     last_price := last_price r; last_quote := last_quote r;
     snapshot := snapshot r |}.

Definition set_mode (symbol md : string) (reg : gmap string symrec)
    : gmap string symrec :=
  let s := PyStr.upper symbol in
  let '(_, reg) := _ensure s reg in
  alter (with_mode (PyStr.upper md)) s reg.

Definition get_mode (symbol : string) (reg : gmap string symrec)
    : string * gmap string symrec :=
  let s := PyStr.upper symbol in
  let '(_, reg) := _ensure s reg in
  (default "" (mode <$> reg !! s), reg).

Definition get_all_modes (reg : gmap string symrec) : gmap string string :=
  mode <$> reg.

(** ** Hydrator *)

Definition EPS : Qc := qc 1 1000000000000.

(** [max(a, b)] on floats: [b] when [b > a], else [a]. *)
Definition py_max (a b : Qc) : Qc :=
  if bool_decide (a < b)%Qc then b else a.

Definition _compute_features (bid_px bid_sz ask_px ask_sz : Qc)
    : gmap string Qc :=
  let spread := py_max (qz 0) (ask_px - bid_px)%Qc in
  let mid := if bool_decide (qz 0 < spread)%Qc
             then ((ask_px + bid_px) / qz 2)%Qc else bid_px in
  let sum_bid := bid_sz in
  let sum_ask := ask_sz in
  let tot := (sum_bid + sum_ask)%Qc in
  let imbalance := if bool_decide (EPS < tot)%Qc
                   then ((sum_bid - sum_ask) / tot)%Qc else qz 0 in
  let pressure := ((bid_sz - ask_sz) / py_max (bid_sz + ask_sz) EPS)%Qc in
  <["spread" := spread]> (<["mid" := mid]> (<["bid_sz" := sum_bid]>
    (<["ask_sz" := sum_ask]> (<["imbalance" := imbalance]>
      (<["pressure" := pressure]> ∅))))).

Inductive status := Done | Raises.

Definition store (symbol : string) (r : symrec) (reg : gmap string symrec)
    : gmap string symrec :=
  <[PyStr.upper symbol := r]> reg.

Section hydrate.
Context {pc : PyConv}.

(** [float(quote.get(k1, quote.get(k2, 0.0)))]. *)
Definition quote_field (quote : gmap string pyval) (k1 k2 : string)
    : option Qc :=
  py_float (dict_get quote k1 (dict_get quote k2 (PFloat (qz 0)))).

(** [hydrate_snapshot]: the record is fetched (and created) first; a
    failing [float(...)] leaves it as fetched. *)
Definition hydrate_snapshot (symbol : string) (quote : gmap string pyval)
    (reg : gmap string symrec) : status * gmap string symrec :=
  let '(sreg, reg) := getitem symbol reg in
  match quote_field quote "bid" "bid_price",
        quote_field quote "ask" "ask_price",
        quote_field quote "buy_volume" "bid_size",
        quote_field quote "sell_volume" "ask_size" with
  | Some bid, Some ask, Some bid_sz, Some ask_sz =>
      let ts := dict_get quote "timestamp" PNone in
      let feats := _compute_features bid bid_sz ask ask_sz in
      let snap := feats ∪ snapshot sreg in          (* snap.update(feats) *)
      let sreg' :=
        {| mode := mode sreg; flags := flags sreg;
           last_update := ts;
           last_price := snap !! "mid";
           last_quote := last_quote sreg;
           snapshot := snap |} in
      (Done, store symbol sreg' reg)
  | _, _, _, _ => (Raises, reg)
  end.
End hydrate.

(** ** Reference definitions and examples *)


(** The record [hydrate_snapshot] stores for features [feats] and
    timestamp [ts] over the record [r] it fetched. *)
Definition hydrated (feats : gmap string Qc) (ts : pyval) (r : symrec)
    : symrec :=
  {| mode := mode r; flags := flags r; last_update := ts;
     last_price := (feats ∪ snapshot r) !! "mid";
     last_quote := last_quote r; snapshot := feats ∪ snapshot r |}.

(** A quote as section 3 of the specification has it: the four numeric
    fields [bid], [ask], [bid_size], [ask_size]. *)
Definition quote_of (bid ask bid_size ask_size : Qc) : gmap string pyval :=
  <["bid" := PFloat bid]> (<["ask" := PFloat ask]>
    (<["bid_size" := PFloat bid_size]> (<["ask_size" := PFloat ask_size]> ∅))).

(** Section 4.3 of the specification, edge case: a quote is ignored when
    hydrating leaves the record of the symbol as a plain read finds
    it. *)
Definition ignores_quote {pc : PyConv} (symbol : string)
    (quote : gmap string pyval) (reg : gmap string symrec) : Prop :=
  (hydrate_snapshot symbol quote reg).2 !! PyStr.upper symbol
  = (getitem symbol reg).2 !! PyStr.upper symbol.


(** A quote with no bid side, and a crossed quote. *)
Definition no_bid_quote : gmap string pyval :=
  <["ask" := PFloat (qc 10 1)]> (<["bid_size" := PInt 1]>
    (<["ask_size" := PInt 1]> (<["timestamp" := PInt 5]> ∅))).

Definition crossed_quote : gmap string pyval :=
  <["bid" := PFloat (qc 101 1)]> (<["ask" := PFloat (qc 100 1)]>
    (<["bid_size" := PInt 1]> (<["ask_size" := PInt 1]> ∅))).

(** A registry that already knows AAPL, untouched since creation. *)
Definition aapl_known : gmap string symrec :=
  <["AAPL" := default_record]> ∅.

End Mem.

(* ===================================================================== *)
(** * ingestion/quote_stream.py *)
(* ===================================================================== *)

Module QuoteStream.
Section quotes.
Context {pc : PyConv}.

(** [_normalize_quote]: [None] when a required field is missing
    ([KeyError]) or does not convert. *)
Definition _normalize_quote (ev : gmap string pyval)
    : option (gmap string pyval) :=
  sym ← py_str <$> ev !! "sym";
  bp ← ev !! "bp" ≫= py_float;
  bs ← ev !! "bs" ≫= py_int;
  ap ← ev !! "ap" ≫= py_float;
  aS ← ev !! "as" ≫= py_int;
  ts ← ev !! "t" ≫= py_int;
  let out : gmap string pyval :=
    <["type" := PStr "quote"]> (<["symbol" := PStr sym]>
      (<["bid" := PFloat bp]> (<["bsize" := PInt bs]>
        (<["ask" := PFloat ap]> (<["asize" := PInt aS]>
          (<["ts" := PInt ts]> ∅)))))) in
  let x := dict_get ev "x" PNone in
  let out := if is_int x then <["ex" := x]> out else out in
  let c := dict_get ev "c" PNone in
  let out := if is_list c then <["cond" := c]> out else out in
  Some out.

(** The part of [QuoteProcess] a worker touches: what it has published
    on the out channel and its counter. *)
Record worker := mkWorker {
  published : list (gmap string pyval);
  _processed : nat
}.

(** One item through the body of [_worker_loop]. *)
Definition _worker_step (item : gmap string pyval) (w : worker) : worker :=
  match _normalize_quote item with
  | Some out =>
      {| published := published w ++ [out];
         _processed := S (_processed w) |}
  | None => w
  end.

(** The items of the work queue, in the order one worker takes them. *)
Definition _worker_run (items : list (gmap string pyval)) (w : worker)
    : worker :=
  foldl (λ w item, _worker_step item w) w items.

(** The required fields of a quote event are present and convert. *)
Definition required_ok (ev : gmap string pyval) : Prop :=
  is_Some (ev !! "sym") ∧ is_Some (ev !! "bp" ≫= py_float)
  ∧ is_Some (ev !! "bs" ≫= py_int) ∧ is_Some (ev !! "ap" ≫= py_float)
  ∧ is_Some (ev !! "as" ≫= py_int) ∧ is_Some (ev !! "t" ≫= py_int).

End quotes.

(** A crossed quote event as the feed delivers it: bid 101.0, ask 100.0. *)
Definition crossed_event : gmap string pyval :=
  <["ev" := PStr "Q"]> (<["sym" := PStr "AAPL"]>
    (<["bp" := PFloat (qc 101 1)]> (<["bs" := PInt 1]>
      (<["ap" := PFloat (qc 100 1)]> (<["as" := PInt 1]>
        (<["t" := PInt 1700000000000]> ∅)))))).

Definition idle_worker : worker := {| published := []; _processed := 0 |}.

End QuoteStream.

(* ===================================================================== *)
(** * ingestion/tick_stream.py, ingestion/quote_stream.py: control plane *)
(* ===================================================================== *)

Module Control.

(** One control message through the body of [_control_loop] of the
    process whose channel is [role] (["T"] for [TradeProcess], ["Q"] for
    [QuoteProcess]).  [op] and [channel] are the texts
    [str(payload.get(...) or "")], [symbols] the list under ["symbols"].
    The loop catches every exception; the flag is [false] when one was
    caught and logged. *)
Definition _control_step (role op channel : string) (symbols : list string)
    (c : WS.client) : bool * WS.client :=
  let op := PyStr.lower op in
  let channel := PyStr.upper channel in
  if bool_decide (channel ≠ role) then (true, c)
  else if bool_decide (op = "subscribe")
       then (true, WS.subscribe_many symbols role c)
  else if bool_decide (op = "unsubscribe")
       then WS.unsubscribe_many symbols role c
  else if bool_decide (op = "replace")
       then (true, WS.replace_with symbols role c)
  else (true, c).

End Control.

(* ===================================================================== *)
(** * polygon_api/websocket.py: event dispatch *)
(* ===================================================================== *)

Module Dispatch.

(** Truthiness of a value, as [x or ""] tests it. *)
Definition py_truthy (v : pyval) : bool :=
  match v with
  | PNone => false
  | PBool b => b
  | PInt z => negb (Z.eqb z 0)
  | PFloat q => negb (bool_decide (q = qz 0))
  | PStr s => PyStr.truthy s
  | PList l => match l with [] => false | _ => true end
  end.

Section dispatch.
Context {pc : PyConv} {W : Type}.

(** A registered handler: acts on whatever state [W] it owns; the flag is
    [false] when it raises. *)
Definition handler : Type := gmap string pyval → W → bool * W.

(** What [_on_message] has done so far. *)
Record progress := mkProgress {
  client_of : WS.client;
  world : W;
  invoked : nat;           (* handler calls made *)
  errors : nat             (* exceptions caught and logged *)
}.

(** [for h in hs: try: h(ev) except Exception: log]. *)
Fixpoint run_handlers (hs : list handler) (ev : gmap string pyval)
    (p : progress) : progress :=
  match hs with
  | [] => p
  | h :: rest =>
      let '(ok, w) := h ev (world p) in
      run_handlers rest ev
        {| client_of := client_of p; world := w; invoked := S (invoked p);
           errors := if ok then errors p else S (errors p) |}
  end.

(** [str(ev.get("ev") or "")]. *)
Definition event_tag (ev : gmap string pyval) : string :=
  let v := dict_get ev "ev" PNone in
  py_str (if py_truthy v then v else PStr "").

(** The status test: ["success" in status and "authenticated" in msg],
    both lower-cased. *)
Definition is_auth_success (ev : gmap string pyval) : bool :=
  PyStr.contains "success"
    (PyStr.lower (py_str (dict_get ev "status" (PStr ""))))
  && PyStr.contains "authenticated"
       (PyStr.lower (py_str (dict_get ev "message" (PStr "")))).

(** The body of the [for ev in events] loop for an object event.
    [order] is the key order of the client's [_subs]. *)
Definition dispatch_event (handlers : gmap string (list handler))
    (order : list string) (ev : gmap string pyval) (p : progress)
    : progress :=
  let et := event_tag ev in
  if bool_decide (et = "") || bool_decide (et = "status") then
    if is_auth_success ev
    then {| client_of := WS._resub_all order (client_of p);
            world := world p; invoked := invoked p; errors := errors p |}
    else p
  else
    run_handlers (default [] (handlers !! "*")) ev
      (run_handlers (default [] (handlers !! et)) ev p).




(** An event that takes the status branch. *)
Definition is_status_event (ev : gmap string pyval) : Prop :=
  event_tag ev = "" ∨ event_tag ev = "status".

End dispatch.
Arguments handler : clear implicits.
Arguments progress : clear implicits.

(** Handlers on a call log: [notes i] records [i]; [breaks i] records
    [i] and raises. *)
Definition notes (i : nat) : handler (list nat) := λ _ w, (true, w ++ [i]).
Definition breaks (i : nat) : handler (list nat) := λ _ w, (false, w ++ [i]).

Definition sample_handlers : gmap string (list (handler (list nat))) :=
  <["T" := [breaks 1; notes 2]]> (<["*" := [notes 3]]> ∅).


Definition auth_event : gmap string pyval :=
  <["ev" := PStr "status"]> (<["status" := PStr "auth_success"]>
    (<["message" := PStr "authenticated"]> ∅)).

End Dispatch.

(* ===================================================================== *)
(** * ingestion/bar_builder.py *)
(* ===================================================================== *)

Module BarBuilder.

(** A tick of the trade buffer: a dict whose values are numbers, as
    [cold_hydration] appends them. *)
Definition tick : Type := gmap string Qc.

Record bar := mkBar {
  symbol : string;
  timestamp : Qc;
  open : Qc;
  high : Qc;
  low : Qc;
  close : Qc;
  volume : Qc
}.

(** What a call gives: an exception ([KeyError]), [None], or a bar. *)
Inductive result := Raises | NoBar | Built (b : bar).

(** [min(a, b)]: [a] unless [b] is smaller. *)
Definition py_min (a b : Qc) : Qc :=
  if bool_decide (b < a)%Qc then b else a.

(** [max(l)] and [min(l)] of a list with first item [x], and [sum(l)]. *)
Definition list_max (x : Qc) (l : list Qc) : Qc := foldl Mem.py_max x l.
Definition list_min (x : Qc) (l : list Qc) : Qc := foldl py_min x l.
Definition py_sum (l : list Qc) : Qc := foldl Qcplus (qz 0) l.

(** [[t[k] for t in ticks]]; [None] stands for the [KeyError]. *)
Definition column (k : string) (ticks : list tick) : option (list Qc) :=
  mapM (λ t : tick, t !! k) ticks.

(** [build_minute_bar].  [symbol_buffers] holds the trade buffer of each
    symbol (the quote buffer is not touched). *)
Definition build_minute_bar (sym : string)
    (symbol_buffers : gmap string (Ring.buffer tick))
    : result * gmap string (Ring.buffer tick) :=
  match symbol_buffers !! sym with
  | None => (Raises, symbol_buffers)
  | Some b =>
      let '(ticks, b') := Ring.get_short b in
      let bufs := <[sym := b']> symbol_buffers in
      match ticks with
      | [] => (NoBar, bufs)
      | _ :: _ =>
          match column "price" ticks with
          | Some (p0 :: ps) =>
              match column "size" ticks with
              | Some volumes =>
                  match list.last ticks ≫= (λ t : tick, t !! "timestamp") with
                  | Some ts =>
                      (Built {| symbol := sym; timestamp := ts;
                                open := p0; high := list_max p0 ps;
                                low := list_min p0 ps;
                                close := default p0 (list.last (p0 :: ps));
                                volume := py_sum volumes |}, bufs)
                  | None => (Raises, bufs)
                  end
              | None => (Raises, bufs)
              end
          | _ => (Raises, bufs)
          end
      end
  end.

(** Ticks from which a bar can be built: each has a price and a size,
    and the last one a timestamp. *)
Definition well_formed (ticks : list tick) : Prop :=
  Forall (λ t : tick, is_Some (t !! "price") ∧ is_Some (t !! "size")) ticks
  ∧ (∀ t : tick, list.last ticks = Some t → is_Some (t !! "timestamp")).

Definition mk_tick (ts price size : Qc) : tick :=
  <["timestamp" := ts]> (<["price" := price]> (<["size" := size]> ∅)).

(** A trade buffer for AAPL holding three ticks. *)
Definition sample : gmap string (Ring.buffer tick) :=
  <["AAPL" := Ring.append (mk_tick (qz 3) (qz 101) (qz 5))
                (Ring.append (mk_tick (qz 2) (qz 99) (qz 20))
                   (Ring.append (mk_tick (qz 1) (qz 100) (qz 10))
                      (Ring.new 1000)))]> ∅.

End BarBuilder.

(* ===================================================================== *)
(** * ingestion/tick_stream.py, ingestion/quote_stream.py: the work queue *)
(* ===================================================================== *)

Module Ingest.

(** The part of [TradeProcess] / [QuoteProcess] that the WebSocket
    callback touches: the work queue [_q] (a [queue.Queue], oldest item
    first), its [maxsize], and the drop counter. *)
Record pipeline := mkPipeline {
  _q : list (gmap string pyval);
  maxsize : Z;
  _dropped : nat
}.

(** [queue.Queue.put_nowait]; [None] stands for [queue.Full].  A
    [maxsize] of zero or less is unbounded. *)
Definition put_nowait (ev : gmap string pyval) (q : list (gmap string pyval))
    (maxsize : Z) : option (list (gmap string pyval)) :=
  if bool_decide (0 < maxsize) && bool_decide (maxsize ≤ Z.of_nat (length q))
  then None else Some (q ++ [ev]).

(** [queue.Queue.get_nowait]; [None] stands for [queue.Empty]. *)
Definition get_nowait (q : list (gmap string pyval))
    : option (gmap string pyval * list (gmap string pyval)) :=
  match q with
  | [] => None
  | x :: rest => Some (x, rest)
  end.

(** [isinstance(sym, str) and sym], for [sym = ev.get("sym")]. *)
Definition has_sym (ev : gmap string pyval) : bool :=
  match ev !! "sym" with
  | Some (PStr s) => PyStr.truthy s
  | _ => false
  end.

(** [_on_trade_event] / [_on_quote_event]. *)
Definition _on_event (ev : gmap string pyval) (p : pipeline) : pipeline :=
  if negb (has_sym ev) then p else
  match put_nowait ev (_q p) (maxsize p) with
  | Some q' => {| _q := q'; maxsize := maxsize p; _dropped := _dropped p |}
  | None =>
      let q1 := match get_nowait (_q p) with
                | Some (_, rest) => rest
                | None => _q p
                end in
      match put_nowait ev q1 (maxsize p) with
      | Some q' =>
          {| _q := q'; maxsize := maxsize p; _dropped := _dropped p |}
      | None =>
          {| _q := q1; maxsize := maxsize p; _dropped := S (_dropped p) |}
      end
  end.

(** The callback on a sequence of events, in arrival order. *)
Definition _on_events (evs : list (gmap string pyval)) (p : pipeline)
    : pipeline :=
  foldl (λ p ev, _on_event ev p) p evs.

Definition numbered (n : Z) : gmap string pyval :=
  <["sym" := PStr "AAPL"]> (<["t" := PInt n]> ∅).

End Ingest.

(* ===================================================================== *)
(** * ingestion/tick_stream.py: trade normalization *)
(* ===================================================================== *)

Module TickStream.
Section trades.
Context {pc : PyConv}.

(** [isinstance(v, (int, str))]. *)
Definition is_int_or_str (v : pyval) : bool :=
  match v with PInt _ | PBool _ | PStr _ => true | _ => false end.

(** [_normalize_trade]: [None] when a required field is missing
    ([KeyError]) or does not convert. *)
Definition _normalize_trade (ev : gmap string pyval)
    : option (gmap string pyval) :=
  sym ← py_str <$> ev !! "sym";
  price ← ev !! "p" ≫= py_float;
  size ← ev !! "s" ≫= py_int;
  ts ← ev !! "t" ≫= py_int;
  let out : gmap string pyval :=
    <["type" := PStr "trade"]> (<["symbol" := PStr sym]>
      (<["price" := PFloat price]> (<["size" := PInt size]>
        (<["ts" := PInt ts]> ∅)))) in
  let x := dict_get ev "x" PNone in
  let out := if is_int x then <["ex" := x]> out else out in
  let i := dict_get ev "i" PNone in
  let out := if is_int_or_str i then <["id" := i]> out else out in
  let c := dict_get ev "c" PNone in
  let out := if is_list c then <["cond" := c]> out else out in
  Some out.

End trades.

(** A trade event as the feed delivers it, with a fractional size. *)
Definition odd_lot : gmap string pyval :=
  <["ev" := PStr "T"]> (<["sym" := PStr "AAPL"]>
    (<["p" := PInt 190]> (<["s" := PFloat (qc 5 2)]>
      (<["t" := PInt 1700000000000]> (<["i" := PStr "52983525029461"]> ∅))))).

End TickStream.

(* ===================================================================== *)
(** * shared_mem/trade_queue.py *)
(* ===================================================================== *)

Module TradeQueue.
Section queue.
(** [T]: the signals ([TradeSignal]). *)
Context {T : Type}.

(** [TradeSignalQueue]: a deque with [maxlen], oldest signal first. *)
Record queue := mkQueue {
  _dq : list T;
  maxlen : nat
}.

Definition new (maxlen : nat) : queue := {| _dq := []; maxlen := maxlen |}.

Definition put (signal : T) (q : queue) : queue :=
  {| _dq := Ring.deque_append (maxlen q) (_dq q) signal;
     maxlen := maxlen q |}.

Definition get (q : queue) : option T * queue :=
  match _dq q with
  | [] => (None, q)
  | x :: rest => (Some x, {| _dq := rest; maxlen := maxlen q |})
  end.

(** [for _ in range(n): out.append(self._dq.popleft())]; [None] stands
    for the [IndexError] of [popleft] on an empty deque. *)
Fixpoint pop_n (n : nat) (dq out : list T) : option (list T * list T) :=
  match n with
  | O => Some (out, dq)
  | S n' =>
      match dq with
      | [] => None
      | x :: rest => pop_n n' rest (out ++ [x])
      end
  end.

(** [drain(max_items)]; [range(n)] is empty for a negative [n]. *)
Definition drain (max_items : option Z) (q : queue)
    : option (list T * queue) :=
  let n := match max_items with
           | None => Z.of_nat (length (_dq q))
           | Some m => Z.min m (Z.of_nat (length (_dq q)))
           end in
  '(out, dq) ← pop_n (Z.to_nat n) (_dq q) [];
  Some (out, {| _dq := dq; maxlen := maxlen q |}).

Definition len (q : queue) : nat := length (_dq q).

(** A sequence of [put] calls. *)
Definition put_all (signals : list T) (q : queue) : queue :=
  foldl (λ q x, put x q) q signals.

End queue.
Arguments queue : clear implicits.

End TradeQueue.

(* ===================================================================== *)
(** * polygon_api/websocket.py: the sender thread *)
(* ===================================================================== *)

Module Pump.

(** What one iteration of the loop of [_sendq_pump] finds: the socket
    down, the socket up and [send] returning, or [send] raising. *)
Inductive link := Down | Up | Failing.

(** The client and what has gone out on the socket, in order. *)
Record pump := mkPump {
  client_of : WS.client;
  sent : list WS.payload
}.

Definition with_sendq (q : list WS.payload) (c : WS.client) : WS.client :=
  {| WS._subs := WS._subs c; WS._sendq := q;
     WS.max_send_queue := WS.max_send_queue c;
     WS.enqueued := WS.enqueued c; WS.dropped := WS.dropped c |}.

(** [self._sendq.put_nowait(msg)]; [None] stands for [queue.Full]. *)
Definition put_nowait (msg : WS.payload) (c : WS.client)
    : option WS.client :=
  if WS.queue_full c then None
  else Some (with_sendq (WS._sendq c ++ [msg]) c).

(** The handler of the inner [try]: put the message back, or log that it
    is dropped. *)
Definition put_back_or_drop (msg : WS.payload) (c : WS.client)
    : WS.client :=
  match put_nowait msg c with
  | Some c' => c'
  | None =>
      {| WS._subs := WS._subs c; WS._sendq := WS._sendq c;
         WS.max_send_queue := WS.max_send_queue c;
         WS.enqueued := WS.enqueued c;
         WS.dropped := WS.dropped c ++ [msg] |}
  end.

(** One iteration of the loop of [_sendq_pump]. *)
Definition _sendq_pump_iter (l : link) (s : pump) : pump :=
  match WS._sendq (client_of s) with
  | [] => s
  | msg :: rest =>
      let c := with_sendq rest (client_of s) in
      match l with
      | Up => {| client_of := c; sent := sent s ++ [msg] |}
      | Down =>
          match put_nowait msg c with
          | Some c' => {| client_of := c'; sent := sent s |}
          | None => {| client_of := put_back_or_drop msg c; sent := sent s |}
          end
      | Failing => {| client_of := put_back_or_drop msg c; sent := sent s |}
      end
  end.

(** The sender thread and the threads that call [_enqueue], one step at
    a time. *)
Inductive step := Iter (l : link) | Enqueue (p : WS.payload).

Definition run_step (st : step) (s : pump) : pump :=
  match st with
  | Iter l => _sendq_pump_iter l s
  | Enqueue p => {| client_of := WS._enqueue p (client_of s); sent := sent s |}
  end.

Definition run (script : list step) (s : pump) : pump :=
  foldl (λ s st, run_step st s) s script.




End Pump.

(* ===================================================================== *)
(** * Properties of the string helpers *)
(* ===================================================================== *)

Module PyStrSpec.
Import PyStr.

Lemma upper_ascii_idemp (c : ascii) :
  upper_ascii (upper_ascii c) = upper_ascii c.
Proof. by destruct c as [[] [] [] [] [] [] [] []]. Qed.

Lemma upper_idemp (s : string) : upper (upper s) = upper s.
Proof.
  induction s as [|c s IH]; [done|].
  cbn [upper]. by rewrite upper_ascii_idemp, IH.
Qed.

End PyStrSpec.

(* ===================================================================== *)
(** * Properties of the state-to-subscription bridge *)
(* ===================================================================== *)

Module BridgeSpec.
Import Bridge.

Lemma effective_unfold (b : bridge) (now : Qc) (sym : string) :
  _effective_state_for b now sym =
    match srcmap b SRC_OVERRIDE !! sym with
    | Some st => st
    | None =>
        match srcmap b SRC_EVAL !! sym with
        | Some st => st
        | None =>
            match srcmap b SRC_CHART !! sym with
            | Some st =>
                if chart_stale b now sym
                then default "COLD" (srcmap b SRC_DB !! sym) else st
            | None => default "COLD" (srcmap b SRC_DB !! sym)
            end
        end
    end.
Proof.
  unfold _effective_state_for, SOURCE_PRIORITY. cbn [resolve].
  rewrite (bool_decide_eq_false_2 (SRC_OVERRIDE = SRC_CHART)) by discriminate.
  rewrite (bool_decide_eq_false_2 (SRC_EVAL = SRC_CHART)) by discriminate.
  rewrite (bool_decide_eq_false_2 (SRC_DB = SRC_CHART)) by discriminate.
  rewrite (bool_decide_eq_true_2 (SRC_CHART = SRC_CHART)) by reflexivity.
  cbn [andb].
  destruct (srcmap b SRC_OVERRIDE !! sym); [done|].
  destruct (srcmap b SRC_EVAL !! sym); [done|].
  destruct (srcmap b SRC_CHART !! sym);
    [destruct (chart_stale b now sym)|];
    by destruct (srcmap b SRC_DB !! sym).
Qed.

Lemma fresh_not_stale (b : bridge) (now : Qc) (sym : string) :
  chart_fresh b now sym → chart_stale b now sym = false.
Proof.
  intros (ts & Hts & Hle). unfold chart_stale. rewrite Hts. cbn.
  apply bool_decide_eq_false_2. by apply Qcle_not_lt.
Qed.

Lemma old_is_stale (b : bridge) (now : Qc) (sym : string) :
  chart_old b now sym → chart_stale b now sym = true.
Proof.
  intros (ts & Hts & Hlt). unfold chart_stale. rewrite Hts. cbn.
  by apply bool_decide_eq_true_2.
Qed.

(** C1. With the chart entry of [S] fresh, the effective state of [S] is
    the state asserted by the first of override, evaluator, chart, db
    that has [S]; with no source asserting [S] it is COLD. *)
Theorem effective_state_priority (b : bridge) (now : Qc) (sym : string) :
  (is_Some (srcmap b SRC_CHART !! sym) → chart_fresh b now sym) →
  _effective_state_for b now sym =
    default "COLD"
      (first_present (srcmap b SRC_OVERRIDE) (srcmap b SRC_EVAL)
                     (srcmap b SRC_CHART) (srcmap b SRC_DB) sym)
  ∧ (first_present (srcmap b SRC_OVERRIDE) (srcmap b SRC_EVAL)
                   (srcmap b SRC_CHART) (srcmap b SRC_DB) sym = None →
     _effective_state_for b now sym = "COLD").
Proof.
  intros Hfresh.
  assert (_effective_state_for b now sym =
    default "COLD"
      (first_present (srcmap b SRC_OVERRIDE) (srcmap b SRC_EVAL)
                     (srcmap b SRC_CHART) (srcmap b SRC_DB) sym)) as Heq.
  { rewrite effective_unfold. unfold first_present.
    destruct (srcmap b SRC_CHART !! sym) as [c|] eqn:Hc.
    - rewrite (fresh_not_stale b now sym) by (apply Hfresh; eauto).
      by destruct (srcmap b SRC_OVERRIDE !! sym), (srcmap b SRC_EVAL !! sym),
           (srcmap b SRC_DB !! sym).
    - by destruct (srcmap b SRC_OVERRIDE !! sym), (srcmap b SRC_EVAL !! sym),
           (srcmap b SRC_DB !! sym). }
  split; [done|]. intros Hnone. by rewrite Heq, Hnone.
Qed.

Lemma effective_state_priority_witness :
  chart_fresh sample (qz 140) "AAPL"
  ∧ _effective_state_for sample (qz 140) "AAPL" = "COLD".
Proof.
  assert (chart_fresh sample (qz 140) "AAPL") as Hfresh.
  { exists (qz 130). split; [reflexivity|].
    apply (bool_decide_unpack _). vm_compute. exact I. }
  split; [exact Hfresh|].
  destruct (effective_state_priority sample (qz 140) "AAPL" (λ _, Hfresh))
    as [Heq _].
  rewrite Heq. reflexivity.
Defined.

(** ** Resolution after the chart entry has aged out *)

Lemma recompute_eff (clock : string → Qc) (b : bridge) :
  eff_warm (_recompute_and_push clock b) = (_compute_effective b clock).1
  ∧ eff_hot (_recompute_and_push clock b) = (_compute_effective b clock).2.
Proof.
  unfold _recompute_and_push.
  destruct (_compute_effective b clock) as [w h]. cbn [fst snd].
  destruct (bool_decide (w ≠ eff_warm b)) eqn:Hw;
    destruct (bool_decide (h ≠ eff_hot b)) eqn:Hh; cbn; try done.
  apply bool_decide_eq_false_1 in Hw, Hh.
  split; symmetry.
  - by destruct (decide (w = eff_warm b)).
  - by destruct (decide (h = eff_hot b)).
Qed.

(** ** The expirer *)

Lemma elem_of_expired_keys (b : bridge) (now : Qc) (s : string) :
  s ∈ expired_keys b now ↔ chart_old b now s.
Proof.
  unfold expired_keys, chart_old. rewrite list_elem_of_fmap. split.
  - intros ([k ts] & -> & Hin). apply list_elem_of_filter in Hin as [Hold Hin].
    apply elem_of_map_to_list in Hin. eauto.
  - intros (ts & Hts & Hold). exists (s, ts). split; [done|].
    apply list_elem_of_filter. split; [done|]. by apply elem_of_map_to_list.
Qed.

Lemma chart_ts_pop_all (l : list string) (b : bridge) (s : string) :
  chart_ts (foldl pop_chart b l) !! s =
    if decide (s ∈ l) then None else chart_ts b !! s.
Proof.
  revert b. induction l as [|x l IH]; intros b; cbn [foldl].
  - by rewrite decide_False by apply not_elem_of_nil.
  - rewrite IH. cbn [pop_chart chart_ts].
    destruct (decide (s ∈ l)) as [Hin|Hnin].
    + by rewrite decide_True by (by right).
    + destruct (decide (s = x)) as [->|Hne].
      * rewrite decide_True by left. apply lookup_delete_eq.
      * rewrite decide_False by (rewrite elem_of_cons; tauto).
        by apply lookup_delete_ne.
Qed.

Lemma srcmap_pop (b : bridge) (x : string) :
  srcmap (pop_chart b x) SRC_CHART = delete x (srcmap b SRC_CHART).
Proof. unfold srcmap at 1. cbn [pop_chart state_by_source].
       by rewrite lookup_insert_eq. Qed.

Lemma chart_map_pop_all (l : list string) (b : bridge) (s : string) :
  srcmap (foldl pop_chart b l) SRC_CHART !! s =
    if decide (s ∈ l) then None else srcmap b SRC_CHART !! s.
Proof.
  revert b. induction l as [|x l IH]; intros b; cbn [foldl].
  - by rewrite decide_False by apply not_elem_of_nil.
  - rewrite IH, srcmap_pop.
    destruct (decide (s ∈ l)) as [Hin|Hnin].
    + by rewrite decide_True by (by right).
    + destruct (decide (s = x)) as [->|Hne].
      * rewrite decide_True by left. apply lookup_delete_eq.
      * rewrite decide_False by (rewrite elem_of_cons; tauto).
        by apply lookup_delete_ne.
Qed.

Lemma other_maps_pop_all (l : list string) (b : bridge) (src : string) :
  src ≠ SRC_CHART →
  srcmap (foldl pop_chart b l) src = srcmap b src.
Proof.
  intros Hne. revert b. induction l as [|x l IH]; intros b; cbn [foldl].
  - done.
  - rewrite IH. unfold srcmap. cbn [pop_chart state_by_source].
    by rewrite lookup_insert_ne.
Qed.

Lemma ttl_iter_chart_ts (now : Qc) (b : bridge) (s : string) :
  chart_ts (_chart_ttl_iter now b) !! s =
    if decide (s ∈ expired_keys b now) then None else chart_ts b !! s.
Proof.
  unfold _chart_ttl_iter.
  destruct (expired_keys b now) as [|x l] eqn:He.
  - by rewrite decide_False by apply not_elem_of_nil.
  - cbn [chart_ts]. apply chart_ts_pop_all.
Qed.

Lemma ttl_iter_chart_map (now : Qc) (b : bridge) (s : string) :
  srcmap (_chart_ttl_iter now b) SRC_CHART !! s =
    if decide (s ∈ expired_keys b now) then None
    else srcmap b SRC_CHART !! s.
Proof.
  unfold _chart_ttl_iter.
  destruct (expired_keys b now) as [|x l] eqn:He.
  - by rewrite decide_False by apply not_elem_of_nil.
  - rewrite <- (chart_map_pop_all (x :: l) b s). done.
Qed.

(** C4. A symbol whose only assertion is a chart entry older than TTL
    resolves to COLD and is in neither effective set after a recompute;
    one pass of the chart expirer removes every chart entry older than
    TTL (timestamp and state), keeps the others, leaves the other sources
    alone, and signals a push exactly when it removed something. *)
Theorem chart_ttl_expiry (b : bridge) (clock : string → Qc) (now : Qc)
    (sym : string) :
  (is_Some (srcmap b SRC_CHART !! sym) →
   chart_old b (clock sym) sym →
   srcmap b SRC_OVERRIDE !! sym = None →
   srcmap b SRC_EVAL !! sym = None →
   srcmap b SRC_DB !! sym = None →
   _effective_state_for b (clock sym) sym = "COLD"
   ∧ (sym ∉ eff_warm (_recompute_and_push clock b))
   ∧ (sym ∉ eff_hot (_recompute_and_push clock b)))
  ∧ (∀ s, chart_old b now s →
       chart_ts (_chart_ttl_iter now b) !! s = None
       ∧ srcmap (_chart_ttl_iter now b) SRC_CHART !! s = None)
  ∧ (∀ s, ¬ chart_old b now s →
       chart_ts (_chart_ttl_iter now b) !! s = chart_ts b !! s
       ∧ srcmap (_chart_ttl_iter now b) SRC_CHART !! s
         = srcmap b SRC_CHART !! s)
  ∧ (∀ src, src ≠ SRC_CHART →
       srcmap (_chart_ttl_iter now b) src = srcmap b src)
  ∧ ((∃ s, chart_old b now s) →
       push_evt (_chart_ttl_iter now b) = true
       ∧ chart_expired (_chart_ttl_iter now b)
         = (chart_expired b + length (expired_keys b now))%nat)
  ∧ (¬ (∃ s, chart_old b now s) → _chart_ttl_iter now b = b).
Proof.
  split; [|split; [|split; [|split; [|split]]]].
  - intros [st Hst] Hold Ho He Hd.
    assert (_effective_state_for b (clock sym) sym = "COLD") as Hcold.
    { rewrite effective_unfold, Ho, He, Hst, Hd.
      by rewrite (old_is_stale b (clock sym) sym Hold). }
    destruct (recompute_eff clock b) as [-> ->].
    unfold _compute_effective. cbn [fst snd].
    split; [done|]. split; intros Hin; apply elem_of_filter in Hin as [Hin _];
      rewrite Hcold in Hin; discriminate.
  - intros s Hold. apply elem_of_expired_keys in Hold.
    rewrite ttl_iter_chart_ts, ttl_iter_chart_map.
    by rewrite !decide_True by done.
  - intros s Hold. rewrite <- elem_of_expired_keys in Hold.
    rewrite ttl_iter_chart_ts, ttl_iter_chart_map.
    by rewrite !decide_False by done.
  - intros src Hne. unfold _chart_ttl_iter.
    destruct (expired_keys b now) as [|x l]; [done|].
    unfold srcmap at 1. cbn [state_by_source].
    by apply (other_maps_pop_all (x :: l) b src).
  - intros [s Hold]. apply elem_of_expired_keys in Hold.
    unfold _chart_ttl_iter.
    destruct (expired_keys b now) as [|x l] eqn:He.
    + by apply not_elem_of_nil in Hold.
    + cbn [push_evt chart_expired]. split; [done|]. f_equal.
      clear. generalize (x :: l). intros l0. revert b.
      induction l0 as [|y l0 IH]; intros b; cbn [foldl]; [done|].
      by rewrite IH.
  - intros Hnone. unfold _chart_ttl_iter.
    destruct (expired_keys b now) as [|x l] eqn:He; [done|].
    exfalso. apply Hnone. exists x. apply elem_of_expired_keys.
    rewrite He. left.
Qed.

Lemma sample_tsla_old : chart_old sample (qz 150) "TSLA".
Proof.
  exists (qz 100). split; [reflexivity|].
  apply (bool_decide_unpack _). vm_compute. exact I.
Defined.

Lemma chart_ttl_expiry_witness :
  (chart_old sample (qz 150) "TSLA"
   ∧ _effective_state_for sample (qz 150) "TSLA" = "COLD")
  ∧ (chart_ts (_chart_ttl_iter (qz 150) sample) !! "TSLA" = None
     ∧ push_evt (_chart_ttl_iter (qz 150) sample) = true).
Proof.
  pose proof (chart_ttl_expiry sample (λ _, qz 150) (qz 150) "TSLA")
    as (Hres & Hrem & _ & _ & Hpush & _).
  split; [split; [exact sample_tsla_old|]|split].
  - apply Hres; [by eexists|exact sample_tsla_old|reflexivity..].
  - apply (Hrem "TSLA" sample_tsla_old).
  - apply Hpush. exists "TSLA". exact sample_tsla_old.
Defined.

End BridgeSpec.

(* ===================================================================== *)
(** * Properties of the bridge's source payloads *)
(* ===================================================================== *)

Module BridgeIOSpec.
Import Bridge BridgeIO.

Lemma assert_state_same source now sym st b :
  srcmap (assert_state source now sym st b) source !! sym = Some st.
Proof.
  unfold srcmap at 1. cbn [assert_state state_by_source].
  rewrite lookup_insert_eq. cbn. apply lookup_insert_eq.
Qed.

Lemma assert_state_other source now sym st b src s :
  src ≠ source ∨ s ≠ sym →
  srcmap (assert_state source now sym st b) src !! s = srcmap b src !! s.
Proof.
  intros Hne. unfold srcmap at 1. cbn [assert_state state_by_source].
  destruct (decide (src = source)) as [->|Hsrc].
  - rewrite lookup_insert_eq. cbn. destruct Hne as [?|?]; [done|].
    by rewrite lookup_insert_ne.
  - by rewrite lookup_insert_ne.
Qed.

Lemma schedule_push_srcmap b src : srcmap (_schedule_push b) src = srcmap b src.
Proof. done. Qed.

Lemma valid_state_cases (st : string) :
  st ∈ VALID_STATES ↔ st = "COLD" ∨ st = "WARM" ∨ st = "HOT".
Proof.
  unfold VALID_STATES. rewrite !elem_of_union, !elem_of_singleton.
  split; [intros [[?|?]|?]|intros [?|[?|?]]]; auto.
Qed.


Section payload_spec.
Context {pc : PyConv}.



Lemma single_items (sym0 st0 : string) :
  payload_items (single sym0 st0)
  = Some [Some (<["symbol" := PStr sym0]> (<["state" := PStr st0]> ∅))].
Proof. reflexivity. Qed.

Lemma single_texts (sym0 st0 : string) :
  item_text (<["symbol" := PStr sym0]> (<["state" := PStr st0]> ∅)) "symbol"
  = PyStr.strip (PyStr.upper sym0)
  ∧ item_text (<["symbol" := PStr sym0]> (<["state" := PStr st0]> ∅)) "state"
    = PyStr.strip (PyStr.upper st0).
Proof. split; reflexivity. Qed.

(** A single assertion [{symbol, state}] with a non-blank symbol and a
    valid state is stored under the upper-cased, stripped symbol in the
    map of its source and signals a push; nothing else in the source maps
    changes.  An override takes effect at once and for good; an evaluator
    assertion takes effect unless an override holds the symbol; a chart
    assertion takes effect, for as long as it is fresh, unless an override
    or the evaluator holds the symbol. *)
Theorem single_assertion_takes_effect (source sym0 st0 : string) (now : Qc)
    (b : bridge) :
  let sym := PyStr.strip (PyStr.upper sym0) in
  let st := PyStr.strip (PyStr.upper st0) in
  let out := _apply_source_payload source (single sym0 st0) now b in
  PyStr.truthy sym = true → st ∈ VALID_STATES →
  out.1 = true ∧ push_evt out.2 = true
  ∧ srcmap out.2 source !! sym = Some st
  ∧ (∀ src s, src ≠ source ∨ s ≠ sym →
       srcmap out.2 src !! s = srcmap b src !! s)
  ∧ (source = SRC_OVERRIDE → ∀ t, _effective_state_for out.2 t sym = st)
  ∧ (source = SRC_EVAL → srcmap b SRC_OVERRIDE !! sym = None →
     ∀ t, _effective_state_for out.2 t sym = st)
  ∧ (source = SRC_CHART → srcmap b SRC_OVERRIDE !! sym = None →
     srcmap b SRC_EVAL !! sym = None →
     ∀ t, (t - now ≤ CHART_TTL_SEC)%Qc →
          _effective_state_for out.2 t sym = st).
Proof.
  intros sym st out Hsym Hst.
  assert (out = (true, _schedule_push (assert_state source now sym st b)))
    as Hout.
  { subst out. unfold _apply_source_payload. rewrite single_items.
    cbn [apply_items]. destruct (single_texts sym0 st0) as [-> ->].
    fold sym st. rewrite Hsym. cbn [negb orb].
    by rewrite bool_decide_eq_false_2 by (by intros ?). }
  rewrite Hout. cbn [fst snd].
  assert (∀ src s, srcmap (_schedule_push (assert_state source now sym st b))
                     src !! s
                   = srcmap (assert_state source now sym st b) src !! s)
    as Hsp by done.
  split; [done|]. split; [done|].
  split; [by rewrite Hsp, assert_state_same|].
  split; [intros src s Hne; by rewrite Hsp, assert_state_other|].
  split; [|split].
  - intros -> t. rewrite BridgeSpec.effective_unfold.
    by rewrite Hsp, assert_state_same.
  - intros -> Ho t. rewrite BridgeSpec.effective_unfold.
    rewrite (Hsp SRC_OVERRIDE), assert_state_other by (by left).
    by rewrite Ho, Hsp, assert_state_same.
  - intros -> Ho He t Hfresh. rewrite BridgeSpec.effective_unfold.
    rewrite (Hsp SRC_OVERRIDE), assert_state_other by (by left).
    rewrite (Hsp SRC_EVAL), assert_state_other by (by left).
    rewrite Ho, He, Hsp, assert_state_same.
    rewrite (BridgeSpec.fresh_not_stale _ t sym); [done|].
    exists now. split; [|done]. cbn.
    rewrite bool_decide_eq_true_2 by done. apply lookup_insert_eq.
Qed.

(** An assertion with a blank symbol or with a state other than COLD,
    WARM, HOT is skipped: the bridge is left as it was and no push is
    signalled. *)
Theorem invalid_assertion_ignored (source sym0 st0 : string) (now : Qc)
    (b : bridge) :
  PyStr.truthy (PyStr.strip (PyStr.upper sym0)) = false
  ∨ PyStr.strip (PyStr.upper st0) ∉ VALID_STATES →
  _apply_source_payload source (single sym0 st0) now b = (true, b).
Proof.
  intros Hbad. unfold _apply_source_payload. rewrite single_items.
  cbn [apply_items]. destruct (single_texts sym0 st0) as [-> ->].
  destruct Hbad as [->|Hst]; [done|].
  rewrite (bool_decide_eq_true_2 _ Hst). by rewrite orb_true_r.
Qed.

End payload_spec.


Lemma single_assertion_takes_effect_witness :
  _effective_state_for
    (_apply_source_payload (pc:=strict_conv) SRC_OVERRIDE
       (single " aapl " "cold") (qz 10) sample).2 (qz 500) "AAPL"
  = "COLD".
Proof.
  destruct (single_assertion_takes_effect (pc:=strict_conv)
              SRC_OVERRIDE " aapl " "cold" (qz 10) sample)
    as (_ & _ & _ & _ & Hov & _).
  - reflexivity.
  - apply valid_state_cases. by left.
  - apply (Hov eq_refl).
Defined.

Lemma invalid_assertion_ignored_witness :
  _apply_source_payload (pc:=strict_conv) SRC_EVAL
    (single "AAPL" "frozen") (qz 10) sample = (true, sample).
Proof.
  apply invalid_assertion_ignored. right. intros Hin.
  apply valid_state_cases in Hin as [H|[H|H]]; discriminate H.
Defined.

Section failed_batch.
Context {pc : PyConv}.

Lemma assert_state_push_evt source now sym st b :
  push_evt (assert_state source now sym st b) = push_evt b.
Proof. done. Qed.

Lemma apply_items_push_evt source now items : ∀ b changed,
  push_evt (apply_items source now items b changed).1.2 = push_evt b.
Proof.
  induction items as [|[it|] items IH]; intros b changed;
    cbn [apply_items]; [done| |done].
  destruct (negb (PyStr.truthy (item_text it "symbol"))
            || bool_decide (item_text it "state" ∉ VALID_STATES)).
  - apply IH.
  - by rewrite IH.
Qed.

Lemma apply_items_fail source now (pre : list (gmap string pyval))
    (post : list item) : ∀ b changed,
  apply_items source now ((Some <$> pre) ++ None :: post) b changed
  = (false, (apply_items source now (Some <$> pre) b changed).1.2,
     (apply_items source now (Some <$> pre) b changed).2).
Proof.
  induction pre as [|it pre IH]; intros b changed;
    cbn [fmap list_fmap app apply_items]; [done|].
  destruct (negb (PyStr.truthy (item_text it "symbol"))
            || bool_decide (item_text it "state" ∉ VALID_STATES));
    apply IH.
Qed.

(** A batch that fails midway is applied halfway and not pushed.  When
    an element of a batch is not an object, [_apply_source_payload]
    raises at that element: the assertions of the elements before it
    have been stored, those after it are never looked at, and the push
    event is left as it was.  Unless something else sets the event, the
    pusher then does nothing, and the stored assertions do not reach the
    effective sets or the control channel. *)
Theorem failed_batch_is_not_pushed (source : string)
    (fields : gmap string pyval) (pre : list (gmap string pyval))
    (post : list item) (now : Qc) (clock : string → Qc) (b : bridge) :
  let p := {| fields := fields;
              batch := Some (Some ((Some <$> pre) ++ None :: post)) |} in
  let applied := apply_items source now (Some <$> pre) b false in
  let r := _apply_source_payload source p now b in
  r.1 = false
  ∧ r.2 = applied.1.2
  ∧ push_evt r.2 = push_evt b
  ∧ (push_evt b = false → _pusher_iter clock r.2 = r.2).
Proof.
  intros p applied r.
  assert (r = (false, applied.1.2)) as Hr.
  { subst r applied p. unfold _apply_source_payload, payload_items.
    cbn [batch]. by rewrite apply_items_fail. }
  assert (push_evt r.2 = push_evt b) as Hevt.
  { rewrite Hr. subst applied. cbn [snd]. apply apply_items_push_evt. }
  split; [by rewrite Hr|]. split; [by rewrite Hr|]. split; [done|].
  intros Hoff. unfold _pusher_iter. by rewrite Hevt, Hoff.
Qed.

End failed_batch.

Lemma failed_batch_is_not_pushed_witness :
  let r := _apply_source_payload (pc:=strict_conv) SRC_OVERRIDE
             {| fields := ∅;
                batch := Some (Some [Some (fields (single "AAPL" "HOT"));
                                     None]) |}
             (qz 100) init in
  _effective_state_for r.2 (qz 100) "AAPL" = "HOT"
  ∧ eff_hot (_pusher_iter (λ _, qz 100) r.2) = ∅.
Proof.
  intros r.
  destruct (failed_batch_is_not_pushed (pc:=strict_conv) SRC_OVERRIDE ∅
              [fields (single "AAPL" "HOT")] [] (qz 100) (λ _, qz 100) init)
    as (_ & _ & _ & Hidle).
  split.
  - vm_compute. reflexivity.
  - etrans; [exact (f_equal eff_hot (Hidle eq_refl))|].
    vm_compute. reflexivity.
Defined.

End BridgeIOSpec.

(* ===================================================================== *)
(** * Properties of the WebSocket client *)
(* ===================================================================== *)

Module WSSpec.
Import WS.

Lemma sorted_lists_set (X : gset string) :
  lists_set (PyStr.sorted (elements X)) X.
Proof.
  unfold lists_set, PyStr.sorted. split; [|split].
  - intros s. rewrite merge_sort_Permutation. apply elem_of_elements.
  - rewrite merge_sort_Permutation. apply NoDup_elements.
  - apply (Sorted_merge_sort _).
Qed.

Lemma sorted_nil_iff (X : gset string) :
  PyStr.sorted (elements X) = [] ↔ X = ∅.
Proof.
  split.
  - intros Hnil. apply set_eq. intros s.
    destruct (sorted_lists_set X) as [Hin _]. split.
    + intros Hs. apply Hin in Hs. rewrite Hnil in Hs.
      by apply not_elem_of_nil in Hs.
    + intros Hs. by apply not_elem_of_empty in Hs.
  - intros ->. by rewrite elements_empty.
Qed.

Lemma enqueue_subs p c : _subs (_enqueue p c) = _subs c.
Proof. unfold _enqueue. by destruct (queue_full c). Qed.

Lemma enqueue_max p c : max_send_queue (_enqueue p c) = max_send_queue c.
Proof. unfold _enqueue. by destruct (queue_full c). Qed.

Lemma enqueue_history p c : enqueued (_enqueue p c) = enqueued c ++ [p].
Proof. unfold _enqueue. by destruct (queue_full c). Qed.

Lemma has_room_not_full c n : has_room c (S n) → queue_full c = false.
Proof.
  unfold has_room, queue_full. intros [Hle|Hle].
  - rewrite bool_decide_eq_false_2 by lia. done.
  - rewrite (bool_decide_eq_false_2 (max_send_queue c ≤ _)) by lia.
    apply andb_false_r.
Qed.

Lemma enqueue_room p c n :
  has_room c (S n) →
  _sendq (_enqueue p c) = _sendq c ++ [p] ∧ dropped (_enqueue p c) = dropped c
  ∧ has_room (_enqueue p c) n.
Proof.
  intros Hroom. unfold _enqueue. rewrite (has_room_not_full c n Hroom).
  cbn. split; [done|]. split; [done|].
  unfold has_room in *. cbn. rewrite length_app. cbn. lia.
Qed.

Lemma enqueue_full p c :
  queue_full c = true →
  _sendq (_enqueue p c) = _sendq c ∧ dropped (_enqueue p c) = dropped c ++ [p].
Proof. intros Hfull. unfold _enqueue. by rewrite Hfull. Qed.

Lemma has_room_weaken c n m : (m ≤ n)%nat → has_room c n → has_room c m.
Proof. unfold has_room. intros Hle [H|H]; [by left|right; lia]. Qed.

(** Symbols that are already normal pass through [normalize] as they
    are. *)
Lemma normalize_symbols (symbols : list string) :
  Forall is_symbol symbols → normalize symbols = list_to_set symbols.
Proof.
  intros Hall. unfold normalize. f_equal.
  induction Hall as [|s l (Ht & Hs & Hu) Hall IH]; [done|].
  rewrite filter_cons_True by (by rewrite Hs, Ht).
  cbn [map]. by rewrite Hs, Hu, IH.
Qed.

Lemma replace_with_unfold (symbols : list string) (channel : string)
    (c : client) :
  let current := default ∅ (_subs c !! channel) in
  let target := normalize symbols in
  let rem := PyStr.sorted (elements (current ∖ target)) in
  let add := PyStr.sorted (elements (target ∖ current)) in
  let c' := replace_with symbols channel c in
  enqueued c' = enqueued c ++ diff_msgs rem add channel
  ∧ _subs c' = <[channel := target]> (_subs c)
  ∧ max_send_queue c' = max_send_queue c
  ∧ (has_room c 2 →
     _sendq c' = _sendq c ++ diff_msgs rem add channel
     ∧ dropped c' = dropped c).
Proof.
  intros current target rem add c'.
  assert (∃ c0, setdefault_subs channel c = (current, c0)
    ∧ <[channel := target]> (_subs c0) = <[channel := target]> (_subs c)
    ∧ enqueued c0 = enqueued c ∧ _sendq c0 = _sendq c
    ∧ dropped c0 = dropped c ∧ max_send_queue c0 = max_send_queue c)
    as (c0 & Hsd & Hsubs & Henq & Hq & Hdr & Hmax).
  { unfold setdefault_subs, current.
    destruct (_subs c !! channel) as [v|]; cbn.
    - by exists c.
    - eexists. split; [done|]. cbn. by rewrite insert_insert_eq. }
  subst c'. unfold replace_with. fold target. rewrite Hsd.
  fold add. fold rem. unfold diff_msgs.
  destruct rem as [|r rem'] eqn:Hrem; destruct add as [|a add'] eqn:Hadd;
    cbn [set_subs _subs enqueued _sendq dropped max_send_queue app];
    rewrite ?enqueue_subs, ?enqueue_history, ?enqueue_max, ?app_nil_r,
      ?Hsubs, ?Henq, ?Hmax, <- ?app_assoc;
    (split; [done|]); (split; [done|]); (split; [done|]); intros Hroom.
  - by rewrite Hq, Hdr.
  - assert (has_room c0 1) as Hr.
    { apply (has_room_weaken _ 2); [lia|].
      unfold has_room in *. by rewrite Hq, Hmax. }
    destruct (enqueue_room (_make_sub_msg (a :: add') channel) c0 0 Hr)
      as (-> & -> & _). by rewrite Hq, Hdr.
  - assert (has_room c0 1) as Hr.
    { apply (has_room_weaken _ 2); [lia|].
      unfold has_room in *. by rewrite Hq, Hmax. }
    destruct (enqueue_room (_make_unsub_msg (r :: rem') channel) c0 0 Hr)
      as (-> & -> & _). by rewrite Hq, Hdr.
  - assert (has_room c0 2) as Hr.
    { unfold has_room in *. by rewrite Hq, Hmax. }
    destruct (enqueue_room (_make_unsub_msg (r :: rem') channel) c0 1 Hr)
      as (Hq1 & Hd1 & Hr1).
    destruct (enqueue_room (_make_sub_msg (a :: add') channel) _ 0 Hr1)
      as (-> & -> & _).
    by rewrite Hq1, Hd1, Hq, Hdr, <- app_assoc.
Qed.

Lemma replace_with_same (symbols : list string) (channel : string)
    (c : client) :
  _subs c !! channel = Some (normalize symbols) →
  replace_with symbols channel c = c.
Proof.
  intros Hsub. unfold replace_with, setdefault_subs. rewrite Hsub.
  rewrite difference_diag_L, elements_empty. cbn.
  unfold set_subs. rewrite insert_id by done. by destruct c.
Qed.

(** C2. [replace_with] hands to [_enqueue] an unsubscribe message for
    exactly [current - new] and then a subscribe message for exactly
    [new - current], each only when that side of the diff is not empty,
    and nothing else; with room in the send queue these are what is
    appended to it.  It installs [new] as the channel's set and leaves
    the other channels alone.  Repeating the call changes nothing: no
    message, no error. *)
Theorem replace_with_diff (symbols : list string) (channel : string)
    (c : client) :
  let current := default ∅ (_subs c !! channel) in
  let new := normalize symbols in
  let rem := PyStr.sorted (elements (current ∖ new)) in
  let add := PyStr.sorted (elements (new ∖ current)) in
  let c' := replace_with symbols channel c in
  lists_set rem (current ∖ new)
  ∧ lists_set add (new ∖ current)
  ∧ enqueued c' = enqueued c ++ diff_msgs rem add channel
  ∧ (has_room c 2 →
     _sendq c' = _sendq c ++ diff_msgs rem add channel
     ∧ dropped c' = dropped c)
  ∧ _subs c' !! channel = Some new
  ∧ (∀ ch, ch ≠ channel → _subs c' !! ch = _subs c !! ch)
  ∧ (Forall is_symbol symbols → new = list_to_set symbols)
  ∧ replace_with symbols channel c' = c'.
Proof.
  intros current new rem add c'.
  destruct (replace_with_unfold symbols channel c)
    as (Henq & Hsubs & _ & Hroom).
  fold current new rem add c' in Henq, Hsubs, Hroom.
  assert (_subs c' !! channel = Some new) as Hnew
    by (by rewrite Hsubs, lookup_insert_eq).
  split; [apply sorted_lists_set|]. split; [apply sorted_lists_set|].
  split; [done|]. split; [done|]. split; [done|].
  split; [by intros ch Hne; rewrite Hsubs, lookup_insert_ne|].
  split; [apply normalize_symbols|].
  by apply replace_with_same.
Qed.

Lemma sample_has_room : has_room sample 2.
Proof. right. vm_compute. discriminate. Defined.

Lemma replace_with_diff_witness :
  has_room sample 2
  ∧ _sendq (replace_with ["MSFT"; " nvda "] "T" sample) =
      [ {| action := "auth"; params := "key" |};
        {| action := "unsubscribe"; params := "T.AAPL" |};
        {| action := "subscribe"; params := "T.NVDA" |} ].
Proof.
  split; [exact sample_has_room|].
  pose proof (replace_with_diff ["MSFT"; " nvda "] "T" sample)
    as (_ & _ & _ & Hq & _).
  destruct (Hq sample_has_room) as [Hsend _].
  rewrite Hsend. vm_compute. reflexivity.
Defined.

(** ** Incremental subscription *)

Lemma setdefault_subs_spec (channel : string) (c : client) :
  ∃ c0, setdefault_subs channel c = (subs_get channel c, c0)
        ∧ _subs c0 !! channel = Some (subs_get channel c)
        ∧ (∀ ch, ch ≠ channel → _subs c0 !! ch = _subs c !! ch)
        ∧ enqueued c0 = enqueued c ∧ _sendq c0 = _sendq c
        ∧ dropped c0 = dropped c ∧ max_send_queue c0 = max_send_queue c
        ∧ setdefault_subs channel c0 = (subs_get channel c, c0).
Proof.
  unfold setdefault_subs, subs_get.
  destruct (_subs c !! channel) as [v|] eqn:Hv; cbn.
  - exists c. rewrite Hv. done.
  - eexists. split; [done|]. cbn. rewrite lookup_insert_eq.
    split; [done|]. split; [|done].
    intros ch Hne. by rewrite lookup_insert_ne.
Qed.

Lemma filter_none {A} (P : A → Prop) `{∀ x, Decision (P x)} (l : list A) :
  (∀ x, x ∈ l → ¬ P x) → filter P l = [].
Proof.
  induction l as [|y l IH]; intros Hall; [done|].
  rewrite filter_cons_False by (apply Hall; left).
  apply IH. intros x Hx. apply Hall. by right.
Qed.

Lemma added_symbols (cur : gset string) (syms : list string) :
  cur ∪ list_to_set (filter (λ s, s ∉ cur) syms) = cur ∪ list_to_set syms.
Proof.
  apply set_eq. intros x.
  rewrite !elem_of_union, !elem_of_list_to_set, list_elem_of_filter.
  destruct (decide (x ∈ cur)); tauto.
Qed.

(** [subscribe_many] makes the channel's set the union of the old set and
    the cleaned symbols, leaves the other channels alone, hands [_enqueue]
    one subscribe message listing only the symbols that were not yet
    subscribed (in input order), or nothing when there is none, and a
    repeated call changes nothing. *)
Theorem subscribe_many_adds_new (symbols : list string) (channel : string)
    (c : client) :
  let syms := clean_list symbols in
  let cur := subs_get channel c in
  let c' := subscribe_many symbols channel c in
  subs_get channel c' = cur ∪ list_to_set syms
  ∧ (∀ ch, ch ≠ channel → _subs c' !! ch = _subs c !! ch)
  ∧ enqueued c' = enqueued c ++
      match filter (λ s, s ∉ cur) syms with
      | [] => []
      | new => [_make_sub_msg new channel]
      end
  ∧ subscribe_many symbols channel c' = c'.
Proof.
  intros syms cur c'. subst c'. unfold subscribe_many. fold syms.
  destruct syms as [|s0 syms0] eqn:Hsyms.
  { cbn. rewrite app_nil_r.
    split; [by rewrite (right_id_L ∅ (∪))|done]. }
  destruct (setdefault_subs_spec channel c)
    as (c0 & Hsd & Hl & Hoth & Henq & _ & _ & _ & Hsd0).
  rewrite Hsd. fold cur in Hsd, Hl, Hsd0 |- *.
  destruct (filter (λ s, s ∉ cur) (s0 :: syms0)) as [|n new] eqn:Hnew.
  - rewrite app_nil_r, Hsd0. cbv beta iota. rewrite Hnew.
    split; [|by split].
    unfold subs_get at 1. rewrite Hl. cbn [default from_option id].
    rewrite <- (added_symbols cur (s0 :: syms0)), Hnew, list_to_set_nil.
    by rewrite (right_id_L ∅ (∪)).
  - unfold subs_get at 1.
    rewrite enqueue_subs, enqueue_history. unfold set_subs at 1 2 3.
    cbn [_subs enqueued].
    rewrite lookup_insert_eq. cbn [default from_option id].
    split; [by rewrite <- Hnew, added_symbols|].
    split; [intros ch Hne; rewrite lookup_insert_ne by done; by apply Hoth|].
    split; [by rewrite Henq|].
    unfold setdefault_subs. rewrite enqueue_subs. unfold set_subs at 1.
    cbn [_subs]. rewrite lookup_insert_eq.
    replace (filter (λ s, s ∉ cur ∪ list_to_set (n :: new)) (s0 :: syms0))
      with (@nil string); [done|].
    symmetry. apply filter_none. intros x Hx Hnin.
    apply Hnin. rewrite <- Hnew, added_symbols.
    apply elem_of_union_r, elem_of_list_to_set, Hx.
Qed.

Lemma remove_each_missing (rem : list string) : ∀ cur x,
  x ∈ rem → x ∉ cur → (remove_each rem cur).1 = false.
Proof.
  induction rem as [|s rest IH]; intros cur x Hin Hnin.
  - by apply not_elem_of_nil in Hin.
  - cbn [remove_each]. case_bool_decide as Hs; [|done].
    apply elem_of_cons in Hin as [->|Hin]; [done|].
    apply (IH _ x Hin). rewrite elem_of_difference. tauto.
Qed.

(** [remove_each] completes exactly on lists without repetition (of
    elements of the set). *)
Lemma remove_each_spec (rem : list string) : ∀ cur,
  (∀ x, x ∈ rem → x ∈ cur) →
  (NoDup rem → remove_each rem cur = (true, cur ∖ list_to_set rem))
  ∧ (¬ NoDup rem → (remove_each rem cur).1 = false).
Proof.
  induction rem as [|s rest IH]; intros cur Hsub.
  - split; [intros _; cbn [remove_each]|intros Hnd; destruct Hnd; constructor].
    by rewrite list_to_set_nil, difference_empty_L.
  - cbn [remove_each]. rewrite bool_decide_eq_true_2 by (apply Hsub; left).
    destruct (decide (s ∈ rest)) as [Hin|Hnin].
    + split; [intros Hnd; apply list.NoDup_cons in Hnd as [? ?]; done|].
      intros _. apply (remove_each_missing rest _ s Hin).
      rewrite elem_of_difference, elem_of_singleton. tauto.
    + destruct (IH (cur ∖ {[s]})) as [Hok Hbad].
      { intros x Hx. rewrite elem_of_difference, elem_of_singleton.
        split; [apply Hsub; by right|]. intros ->. done. }
      split.
      * intros Hnd. apply list.NoDup_cons in Hnd as [_ Hnd].
        rewrite (Hok Hnd). f_equal. apply set_eq. intros x.
        rewrite list_to_set_cons, !elem_of_difference, elem_of_union.
        tauto.
      * intros Hnd. apply Hbad. intros Hnd'. apply Hnd.
        by apply list.NoDup_cons.
Qed.

(** [unsubscribe_many] on an input without repeated subscribed symbols
    removes exactly the cleaned symbols from the channel's set and hands
    [_enqueue] one unsubscribe message listing those that were subscribed
    (none when there is none).  When a subscribed symbol occurs twice in
    the input, the second [set.remove] raises [KeyError]: the call fails
    after the set has been changed and before any message is enqueued. *)
Theorem unsubscribe_many_removes (symbols : list string) (channel : string)
    (c : client) :
  let syms := clean_list symbols in
  let cur := subs_get channel c in
  let rem := filter (λ s, s ∈ cur) syms in
  let out := unsubscribe_many symbols channel c in
  (NoDup rem →
     out.1 = true
     ∧ subs_get channel out.2 = cur ∖ list_to_set syms
     ∧ enqueued out.2 = enqueued c ++
         match rem with [] => [] | _ => [_make_unsub_msg rem channel] end)
  ∧ (¬ NoDup rem →
     out.1 = false
     ∧ enqueued out.2 = enqueued c ∧ _sendq out.2 = _sendq c
     ∧ subs_get channel out.2 ≠ cur)
  ∧ (∀ ch, ch ≠ channel → _subs out.2 !! ch = _subs c !! ch).
Proof.
  intros syms cur rem out. subst out. unfold unsubscribe_many.
  fold syms. fold cur. fold rem.
  assert (cur ∖ list_to_set rem = cur ∖ list_to_set syms) as Hdiff.
  { apply set_eq. intros x. subst rem.
    rewrite !elem_of_difference, !elem_of_list_to_set, list_elem_of_filter.
    tauto. }
  destruct syms as [|s0 syms0] eqn:Hsyms.
  { subst rem. cbn. rewrite app_nil_r.
    split; [intros _; split; [done|]; split; [|done]|].
    - by rewrite difference_empty_L.
    - split; [|done]. intros Hnd. destruct Hnd. constructor. }
  destruct rem as [|r0 rem0] eqn:Hrem.
  { cbn [fst snd]. rewrite app_nil_r.
    split; [intros _; split; [done|]; split; [|done]|].
    - by rewrite <- Hdiff, list_to_set_nil, difference_empty_L.
    - split; [|done]. intros Hnd. destruct Hnd. constructor. }
  assert (∀ x, x ∈ r0 :: rem0 → x ∈ cur) as Hsub.
  { intros x Hx. rewrite <- Hrem in Hx. subst rem.
    by apply list_elem_of_filter in Hx as [? _]. }
  destruct (remove_each_spec (r0 :: rem0) cur Hsub) as [Hok Hbad].
  split; [|split].
  - intros Hnd. rewrite (Hok Hnd). cbn [fst snd].
    unfold subs_get at 1. rewrite enqueue_subs, enqueue_history.
    unfold set_subs. cbn [_subs enqueued]. rewrite lookup_insert_eq.
    cbn [default from_option id]. by rewrite Hdiff.
  - intros Hnd. specialize (Hbad Hnd).
    destruct (remove_each (r0 :: rem0) cur) as [ok remaining] eqn:Hre.
    cbn [fst] in Hbad. subst ok. cbn [fst snd].
    unfold subs_get at 1. unfold set_subs. cbn [_subs enqueued _sendq].
    rewrite lookup_insert_eq. cbn [default from_option id].
    split; [done|]. split; [done|]. split; [done|].
    cbn [remove_each] in Hre.
    rewrite bool_decide_eq_true_2 in Hre by (apply Hsub; left).
    intros Heq.
    assert (r0 ∉ remaining) as Hr0.
    { clear -Hre. revert Hre.
      assert (r0 ∉ cur ∖ {[r0]}) as H0
        by (rewrite elem_of_difference, elem_of_singleton; tauto).
      revert H0. generalize (cur ∖ {[r0]}). clear.
      induction rem0 as [|y l IH]; intros X HX Hre.
      - cbn in Hre. discriminate Hre.
      - cbn [remove_each] in Hre. case_bool_decide.
        + apply (IH (X ∖ {[y]})); [|done].
          rewrite elem_of_difference. tauto.
        + by injection Hre as <-. }
    apply Hr0. rewrite Heq. apply Hsub. left.
  - intros ch Hne.
    destruct (remove_each (r0 :: rem0) cur) as [[|] remaining];
      cbn [snd]; rewrite ?enqueue_subs; unfold set_subs; cbn [_subs];
      by rewrite lookup_insert_ne.
Qed.

Lemma unsubscribe_many_removes_witness :
  (unsubscribe_many ["AAPL"; "aapl"] "T" sample).1 = false
  ∧ enqueued (unsubscribe_many ["AAPL"; "aapl"] "T" sample).2
    = enqueued sample
  ∧ (unsubscribe_many ["MSFT"; "nvda"] "T" sample).1 = true.
Proof.
  destruct (unsubscribe_many_removes ["AAPL"; "aapl"] "T" sample)
    as (_ & Hdup & _).
  destruct (unsubscribe_many_removes ["MSFT"; "nvda"] "T" sample)
    as (Hok & _ & _).
  assert (¬ NoDup ["AAPL"; "AAPL"]) as Hnd.
  { intros Hnd. apply list.NoDup_cons in Hnd as [Hnin _]. apply Hnin. left. }
  destruct (Hdup Hnd) as (Hflag & Henq & _).
  split; [exact Hflag|]. split; [exact Henq|].
  apply Hok. apply (bool_decide_unpack _). vm_compute. exact I.
Defined.

(** Subscribing one symbol that is not yet subscribed and unsubscribing
    it again restores the channel's set and hands [_enqueue] a subscribe
    and then an unsubscribe message for it; subscribing twice is the same
    as subscribing once, and unsubscribing a symbol that is not subscribed
    does nothing. *)
Theorem subscribe_then_unsubscribe_symbol (symbol channel : string)
    (c : client) :
  let s := PyStr.upper (PyStr.strip symbol) in
  PyStr.truthy s = true →
  s ∉ subs_get channel c →
  let c1 := subscribe_symbol symbol channel c in
  let c2 := unsubscribe_symbol symbol channel c1 in
  subs_get channel c1 = subs_get channel c ∪ {[s]}
  ∧ subs_get channel c2 = subs_get channel c
  ∧ enqueued c2 = enqueued c ++ [ _make_sub_msg [s] channel;
                                  _make_unsub_msg [s] channel ]
  ∧ subscribe_symbol symbol channel c1 = c1
  ∧ unsubscribe_symbol symbol channel c = c.
Proof.
  intros s Hs Hnin c1 c2.
  destruct (setdefault_subs_spec channel c)
    as (c0 & Hsd & Hl & Hoth & Henq & _ & _ & _ & _).
  assert (c1 = _enqueue (_make_sub_msg [s] channel)
                 (set_subs channel (subs_get channel c ∪ {[s]}) c0)) as Hc1.
  { subst c1. unfold subscribe_symbol. fold s. rewrite Hs, Hsd. cbn [negb].
    by rewrite bool_decide_eq_false_2. }
  assert (subs_get channel c1 = subs_get channel c ∪ {[s]}) as Hg1.
  { rewrite Hc1. unfold subs_get at 1. rewrite enqueue_subs.
    unfold set_subs. cbn [_subs]. by rewrite lookup_insert_eq. }
  assert (_subs c1 !! channel = Some (subs_get channel c ∪ {[s]})) as Hl1.
  { rewrite Hc1, enqueue_subs. unfold set_subs. cbn [_subs].
    by rewrite lookup_insert_eq. }
  assert (s ∈ subs_get channel c1) as Hin1
    by (rewrite Hg1; apply elem_of_union_r, elem_of_singleton; done).
  split; [exact Hg1|].
  assert (c2 = _enqueue (_make_unsub_msg [s] channel)
                 (set_subs channel (subs_get channel c1 ∖ {[s]}) c1)) as Hc2.
  { subst c2. unfold unsubscribe_symbol. fold s. rewrite Hs. cbn [negb].
    by rewrite bool_decide_eq_true_2. }
  split; [|split; [|split]].
  - rewrite Hc2. unfold subs_get at 1. rewrite enqueue_subs.
    unfold set_subs. cbn [_subs]. rewrite lookup_insert_eq.
    cbn [default from_option id]. rewrite Hg1. apply set_eq. intros x.
    rewrite elem_of_difference, elem_of_union, elem_of_singleton.
    split; [tauto|]. intros Hx. split; [tauto|]. by intros ->.
  - rewrite Hc2, enqueue_history. unfold set_subs. cbn [enqueued].
    rewrite Hc1, enqueue_history. unfold set_subs. cbn [enqueued].
    by rewrite Henq, <- app_assoc.
  - unfold subscribe_symbol. fold s. rewrite Hs. cbn [negb].
    unfold setdefault_subs. rewrite Hl1.
    by rewrite bool_decide_eq_true_2 by (by rewrite <- Hg1).
  - unfold unsubscribe_symbol. fold s. rewrite Hs. cbn [negb].
    by rewrite bool_decide_eq_false_2.
Qed.

Lemma subscribe_then_unsubscribe_symbol_witness :
  subs_get "T" (unsubscribe_symbol " nvda" "T"
                  (subscribe_symbol " nvda" "T" sample))
  = subs_get "T" sample.
Proof.
  apply (subscribe_then_unsubscribe_symbol " nvda" "T" sample).
  - reflexivity.
  - apply (bool_decide_unpack _). vm_compute. exact I.
Defined.

(** ** Send queue *)



(** ** Reconnect delays *)

(** Each failed attempt hands over to a new runner, which starts from
    [backoff = 1] and [_connect_attempts = 0] again. *)
Lemma run_forever_failing (cfg : runner_cfg) (script : list attempt) :
  reconnect cfg = true →
  1 ≤ max_backoff cfg →
  Forall (λ a, stop_after a = false) script →
  delays (_run_forever cfg false script) = replicate (length script) 1
  ∧ attempt_numbers (_run_forever cfg false script)
    = replicate (length script) 1.
Proof.
  intros Hre Hmax Hall.
  induction Hall as [|a script Ha Hall [IH1 IH2]]; [done|].
  cbn [_run_forever length replicate]. rewrite Ha, Hre. cbn [orb negb].
  unfold delays, attempt_numbers in *. cbn [omap list_omap].
  fold (@omap list _ event Z) in *.
  rewrite IH1, IH2. by rewrite Z.min_l by lia.
Qed.

Lemma jitter_in_range (slp : Z) (u : Qc) :
  0 ≤ slp → (qz 0 ≤ u)%Qc → (u ≤ qz 1)%Qc →
  (qz 0 ≤ uniform (qz 0) (qz slp * qc 2 10) u)%Qc
  ∧ (uniform (qz 0) (qz slp * qc 2 10) u ≤ qz slp * qc 2 10)%Qc.
Proof.
  unfold qz. rewrite Z2Qc_inj_0, Z2Qc_inj_1. intros Hslp Hu0 Hu1.
  unfold uniform.
  assert (0 ≤ Qc_of_Z slp * qc 2 10)%Qc as Hb.
  { apply Qcmult_nonneg_nonneg;
      [|apply (bool_decide_unpack _); vm_compute; exact I].
    apply (Z2Qc_inj_le 0 slp) in Hslp. by rewrite Z2Qc_inj_0 in Hslp. }
  replace (0 + (Qc_of_Z slp * qc 2 10 - 0) * u)%Qc
    with (Qc_of_Z slp * qc 2 10 * u)%Qc by ring.
  split.
  - by apply Qcmult_nonneg_nonneg.
  - rewrite <- (Qcmult_1_r (Qc_of_Z slp * qc 2 10)) at 2.
    by apply Qcmult_le_mono_nonneg_l.
Qed.

(** C5, at the default configuration: three connection attempts fail in
    a row.  The code waits a base delay of 1 s before every retry and
    logs every attempt as attempt 1, where the doubling schedule
    prescribes 1 s, 2 s, 4 s. *)
Theorem backoff_resets_on_handoff :
  delays (_run_forever default_cfg false (failing 3)) = [1; 1; 1]
  ∧ attempt_numbers (_run_forever default_cfg false (failing 3)) = [1; 1; 1]
  ∧ map (doubling_delay (max_backoff default_cfg)) [0; 1; 2]%nat = [1; 2; 4].
Proof. split; [|split]; reflexivity. Qed.

End WSSpec.

(* ===================================================================== *)
(** * Properties of the double ring buffer *)
(* ===================================================================== *)

Module RingSpec.
Import Ring.

Section ring_spec.
Context {A : Type}.
Implicit Types (l cur : list A) (b : buffer A) (ops : list (op A)).

Lemma last_n_length n l : length (last_n n l) = min n (length l).
Proof. unfold last_n. rewrite length_drop. lia. Qed.

Lemma last_n_suffix n l : last_n n l `suffix_of` l.
Proof. apply suffix_drop. Qed.

(** Appending to a bounded deque keeps the last [maxlen] items. *)
Lemma deque_append_last_n maxlen cur x :
  deque_append maxlen (last_n maxlen cur) x = last_n maxlen (cur ++ [x]).
Proof.
  unfold deque_append. rewrite length_app, last_n_length. cbn [length].
  unfold last_n. rewrite length_app. cbn [length].
  destruct (decide (length cur < maxlen)%nat) as [Hlt|Hge].
  - rewrite (proj2 (Nat.ltb_ge _ _)) by lia.
    replace (length cur - maxlen)%nat with 0%nat by lia.
    replace (length cur + 1 - maxlen)%nat with 0%nat by lia. done.
  - rewrite (proj2 (Nat.ltb_lt _ _)) by lia.
    destruct maxlen as [|m].
    + rewrite Nat.sub_0_r, drop_all. cbn [app tail].
      rewrite drop_ge; [done|]. rewrite length_app. cbn. lia.
    + replace (length cur + 1 - S m)%nat
        with (S (length cur - S m)) by lia.
      rewrite drop_app_le by lia.
      destruct (drop (length cur - S m) cur) as [|y t] eqn:Hd.
      * assert (length (drop (length cur - S m) cur) = 0%nat) as Hlen
          by (by rewrite Hd).
        rewrite length_drop in Hlen. lia.
      * cbn [app tail]. f_equal.
        rewrite <- (Nat.add_1_r (length cur - S m)), <- drop_drop, Hd.
        done.
Qed.

(** The buffer between calls: the drain deque is empty and the active
    deque holds the last [maxlen] items appended since the last drain. *)
Lemma run_spec ops : ∀ cur b,
  _drain b = [] →
  _active b = last_n (_maxlen b) cur →
  (run ops b).1 = map (last_n (_maxlen b)) (segments cur ops)
  ∧ _active (run ops b).2 = last_n (_maxlen b) (pending cur ops)
  ∧ _drain (run ops b).2 = []
  ∧ _maxlen (run ops b).2 = _maxlen b.
Proof.
  induction ops as [|[x|] ops IH]; intros cur b Hd Ha.
  - done.
  - cbn [run segments pending].
    destruct (IH (cur ++ [x]) (append x b)) as (H1 & H2 & H3 & H4);
      [done| |done].
    cbn [append _active _maxlen]. rewrite Ha. apply deque_append_last_n.
  - cbn [run segments pending]. unfold drain. cbn [_active _drain _maxlen].
    match goal with |- context [run ops ?b0] =>
      destruct (IH [] b0) as (H1 & H2 & H3 & H4); [done|by rewrite Hd|];
      destruct (run ops b0) as [outs b'] end.
    cbn [fst snd map] in *. by rewrite H1, Ha.
Qed.

Lemma appended_segments ops : ∀ cur,
  cur ++ appended ops = concat (segments cur ops) ++ pending cur ops.
Proof.
  induction ops as [|[x|] ops IH]; intros cur.
  - cbn. by rewrite app_nil_r.
  - cbn [segments pending]. rewrite <- IH.
    unfold appended. cbn [omap]. fold (appended ops).
    by rewrite <- app_assoc.
  - cbn [segments pending concat]. rewrite <- app_assoc, <- IH. done.
Qed.

Lemma concat_last_n_sublist n (segs : list (list A)) :
  concat (map (last_n n) segs) `sublist_of` concat segs.
Proof.
  induction segs as [|seg segs IH]; [done|].
  cbn [map concat]. apply sublist_app; [apply sublist_drop|done].
Qed.

(** C3, as the code has it.  On a new buffer and for every interleaving
    of [append] and [drain]: a [drain] returns exactly the content of the
    active deque, in append order, and leaves the active deque empty;
    the result of each [drain] is the last [capacity] items appended
    since the previous [drain]; all results together, followed by what
    is still buffered, form a subsequence of the append sequence, so no
    item is returned twice. *)
Theorem drain_returns_active_once (capacity : nat) ops :
  let outs := (run ops (new capacity)).1 in
  let b := (run ops (new capacity)).2 in
  (drain b).1 = _active b
  ∧ _active (drain b).2 = []
  ∧ outs = map (last_n capacity) (segments [] ops)
  ∧ (concat outs ++ _active b) `sublist_of` appended ops
  ∧ (NoDup (appended ops) → NoDup (concat outs))
  ∧ Forall (λ o, length o ≤ capacity)%nat outs.
Proof.
  intros outs b.
  destruct (run_spec ops [] (new capacity)) as (H1 & H2 & H3 & H4);
    [done|done|].
  cbn [new _maxlen] in *. fold outs in H1. fold b in H2, H3, H4.
  assert ((concat outs ++ _active b) `sublist_of` appended ops) as Hsub.
  { rewrite <- (app_nil_l (appended ops)), (appended_segments ops []).
    rewrite H1, H2.
    apply sublist_app; [apply concat_last_n_sublist|apply sublist_drop]. }
  split; [done|]. split; [unfold drain; cbn; by rewrite H3|].
  split; [done|]. split; [done|]. split.
  - intros Hnd.
    assert (concat outs `sublist_of` appended ops) as Hs
      by (etransitivity; [|exact Hsub]; by apply sublist_inserts_r).
    exact (sublist_NoDup _ _ Hnd Hs).
  - rewrite H1. apply Forall_fmap, Forall_true. intros seg. cbn.
    rewrite last_n_length. lia.
Qed.

Lemma last_n_all n l : (length l ≤ n)%nat → last_n n l = l.
Proof.
  intros Hle. unfold last_n.
  by replace (length l - n)%nat with 0%nat by lia.
Qed.

Lemma concat_last_n_length n (segs : list (list A)) :
  (length (concat (map (last_n n) segs)) ≤ length (concat segs))%nat
  ∧ (length (concat (map (last_n n) segs)) = length (concat segs) →
     Forall (λ seg, length seg ≤ n)%nat segs).
Proof.
  induction segs as [|seg segs [IH1 IH2]]; [by split|].
  cbn [map concat]. rewrite !length_app, last_n_length. split; [lia|].
  intros Heq. constructor; [lia|]. apply IH2. lia.
Qed.

(** The buffer loses nothing exactly when it never overflows: on a new
    buffer, the items returned by all [drain] calls followed by what is
    still buffered are the whole append sequence, in order, if and only
    if no more than [capacity] items were appended between two
    consecutive drains (and since the last one). *)
Theorem drain_lossless_iff_within_capacity (capacity : nat) ops :
  concat (run ops (new capacity)).1 ++ _active (run ops (new capacity)).2
  = appended ops
  ↔ Forall (λ seg, length seg ≤ capacity)%nat (segments [] ops)
    ∧ (length (pending [] ops) ≤ capacity)%nat.
Proof.
  destruct (run_spec ops [] (new capacity)) as (H1 & H2 & _); [done|done|].
  cbn [new _maxlen] in *. rewrite H1, H2.
  pose proof (appended_segments ops []) as Happ. cbn [app] in Happ.
  rewrite Happ.
  destruct (concat_last_n_length capacity (segments [] ops)) as [Hle Hall].
  split.
  - intros Heq. apply (f_equal length) in Heq.
    rewrite !length_app, last_n_length in Heq.
    split; [apply Hall; lia|lia].
  - intros [Hsegs Hpend]. rewrite (last_n_all _ _ Hpend). f_equal.
    clear -Hsegs. induction Hsegs as [|seg segs Hseg _ IH]; [done|].
    cbn [map concat]. by rewrite IH, (last_n_all _ _ Hseg).
Qed.

End ring_spec.

Lemma drain_returns_active_once_witness :
  NoDup (appended evicting)
  ∧ (run evicting (new 1)).1 = [[1%nat]; [3%nat]]
  ∧ NoDup (concat (run evicting (new 1)).1).
Proof.
  assert (NoDup (appended evicting)) as Hnd.
  { apply (bool_decide_unpack _). vm_compute. exact I. }
  pose proof (drain_returns_active_once 1 evicting)
    as (_ & _ & Houts & _ & Hno & _).
  split; [exact Hnd|]. split; [rewrite Houts; reflexivity|].
  exact (Hno Hnd).
Defined.

(** C3, as written: the drained items are not in general a suffix of the
    append sequence.  With capacity 1, [append 1; drain; append 2;
    append 3; drain] returns [1] and then [3]: item 2 was evicted
    between two returned items. *)
Lemma drains_not_suffix : ¬ drains_are_suffix 1 evicting.
Proof.
  intros (suf & [pre Hpre] & Hperm).
  change (concat (run evicting (new 1)).1) with [1%nat; 3%nat] in Hperm.
  change (appended evicting) with [1%nat; 2%nat; 3%nat] in Hpre.
  assert (length suf = 2%nat) as Hlen
    by (by rewrite <- (Permutation_length Hperm)).
  assert (1%nat ∈ suf) as Hin by (rewrite <- Hperm; left).
  destruct pre as [|p1 [|p2 pre]].
  - cbn in Hpre. subst suf. discriminate Hlen.
  - cbn in Hpre. injection Hpre as <- <-.
    apply elem_of_cons in Hin as [Hin|Hin]; [discriminate|].
    apply elem_of_cons in Hin as [Hin|Hin]; [discriminate|].
    by apply not_elem_of_nil in Hin.
  - apply (f_equal length) in Hpre. rewrite !length_cons, length_app in Hpre.
    cbn in Hpre. lia.
Qed.

End RingSpec.

(* ===================================================================== *)
(** * Properties of the event bus *)
(* ===================================================================== *)

Module BusSpec.
Import Bus.

Section bus_spec.
Context {M W E : Type}.
Implicit Types (b : bus M W E) (cbs pre post : list (callback M W E)).

(** Callbacks that all return are all invoked, in order. *)
Lemma run_callbacks_app pre post (message : M) (w w1 : W) :
  run_callbacks pre message w = (length pre, Returned, w1) →
  run_callbacks (pre ++ post) message w =
    (let '(n, r, w') := run_callbacks post message w1 in
     ((length pre + n)%nat, r, w')).
Proof.
  revert w. induction pre as [|cb pre IH]; intros w Hpre.
  - cbn in Hpre. injection Hpre as <-. cbn.
    by destruct (run_callbacks post message w) as [[n r] w'].
  - cbn [run_callbacks app length] in *.
    destruct (cb message w) as [[|e] w0]; [|discriminate].
    destruct (run_callbacks pre message w0) as [[n0 r0] w0'] eqn:Hrun.
    injection Hpre as -> -> ->.
    rewrite (IH w0 Hrun).
    by destruct (run_callbacks post message w1) as [[n r] w'].
Qed.

Lemma run_callbacks_returned cbs (message : M) (w : W) :
  (run_callbacks cbs message w).1.2 = Returned →
  (run_callbacks cbs message w).1.1 = length cbs.
Proof.
  revert w. induction cbs as [|cb cbs IH]; intros w; [done|].
  cbn [run_callbacks length]. destruct (cb message w) as [[|e] w0].
  - specialize (IH w0).
    destruct (run_callbacks cbs message w0) as [[n r] w']. cbn in *.
    intros Hr. by rewrite IH.
  - discriminate.
Qed.

Lemma publish_unfold (topic : string) (message : M) b (w : W) :
  let run := run_callbacks (default [] (_subs b !! topic)) message w in
  let r := publish topic message b w in
  result r = run.1.2 ∧ invoked r = run.1.1 ∧ world_after r = run.2
  ∧ _queue (bus_after r) =
      match run.1.2 with
      | Returned => _queue b ++ [(topic, message)]
      | Raised _ => _queue b
      end.
Proof.
  cbv zeta. unfold publish, subs_getitem.
  destruct (_subs b !! topic) as [cbs|]; cbn [default from_option id].
  - by destruct (run_callbacks cbs message w) as [[n [|e]] w'].
  - cbn. done.
Qed.

(** C6, as the code has it.  [publish] calls the subscribers of the
    topic in registration order with nothing around the calls: the first
    callback that raises ends the loop, its exception reaches the
    publisher, the subscribers after it are not invoked and the message
    is not appended to the history.  When no callback raises, all are
    invoked and the message is appended. *)
Theorem publish_stops_at_first_raise (topic : string) (message : M) b
    (w : W) :
  let cbs := default [] (_subs b !! topic) in
  let r := publish topic message b w in
  (∀ pre cb post w1 e,
     cbs = pre ++ cb :: post →
     run_callbacks pre message w = (length pre, Returned, w1) →
     (cb message w1).1 = Raised e →
     result r = Raised e
     ∧ invoked r = S (length pre)
     ∧ world_after r = (cb message w1).2
     ∧ _queue (bus_after r) = _queue b)
  ∧ ((run_callbacks cbs message w).1.2 = Returned →
     result r = Returned
     ∧ invoked r = length cbs
     ∧ _queue (bus_after r) = _queue b ++ [(topic, message)]).
Proof.
  intros cbs r.
  destruct (publish_unfold topic message b w) as (Hres & Hinv & Hw & Hq).
  fold cbs r in Hres, Hinv, Hw, Hq. split.
  - intros pre cb post w1 e Hcbs Hpre Hcb.
    assert (run_callbacks cbs message w
            = (S (length pre), Raised e, (cb message w1).2)) as Hrun.
    { rewrite Hcbs, (run_callbacks_app pre (cb :: post) message w w1 Hpre).
      cbn [run_callbacks]. destruct (cb message w1) as [[|e'] w2];
        cbn in Hcb; [discriminate|]. injection Hcb as ->.
      cbn. f_equal. f_equal. lia. }
    rewrite Hrun in Hres, Hinv, Hw, Hq. done.
  - intros Hret. rewrite Hret in Hres, Hq.
    rewrite (run_callbacks_returned cbs message w Hret) in Hinv. done.
Qed.

End bus_spec.

Lemma publish_stops_at_first_raise_witness :
  let r := publish "events" "tick" three_subscribers [] in
  result r = Raised "boom" ∧ invoked r = 2%nat
  ∧ world_after r = [1%nat; 2%nat] ∧ _queue (bus_after r) = [].
Proof.
  intros r.
  destruct (publish_stops_at_first_raise "events" "tick" three_subscribers [])
    as [Hraise _].
  apply (Hraise [logs 1] (fails 2) [logs 3] [1%nat] "boom"); reflexivity.
Defined.

(** C6, as written, fails on three subscribers of which the second
    raises: the publisher gets the exception, the third subscriber is
    never called, and the history stays empty. *)
Lemma publish_does_not_isolate :
  ¬ isolates_failures "events" "tick" three_subscribers []
  ∧ result (publish "events" "tick" three_subscribers []) = Raised "boom"
  ∧ world_after (publish "events" "tick" three_subscribers [])
    = [1%nat; 2%nat]
  ∧ get_recent 50 (bus_after (publish "events" "tick" three_subscribers []))
    = [].
Proof.
  split; [|split; [|split]]; try reflexivity.
  intros (Hres & _). discriminate Hres.
Qed.

Section history_spec.
Context {M W E : Type}.
Implicit Types (b : bus M W E) (cbs : list (callback M W E)).

Lemma run_callbacks_never_raise cbs (m : M) : ∀ w : W,
  Forall (λ cb : callback M W E, ∀ m w, (cb m w).1 = Returned) cbs →
  (run_callbacks cbs m w).1.2 = Returned.
Proof.
  induction cbs as [|cb cbs IH]; intros w Hall; [done|].
  apply list.Forall_cons in Hall as [Hcb Hall].
  cbn [run_callbacks]. specialize (Hcb m w).
  destruct (cb m w) as [[|e] w0]; [|discriminate].
  specialize (IH w0 Hall).
  by destruct (run_callbacks cbs m w0) as [[n r] w'].
Qed.

Lemma publish_never_raise (topic : string) (m : M) b (w : W) :
  never_raise b →
  let b' := bus_after (publish topic m b w) in
  _queue b' = _queue b ++ [(topic, m)]
  ∧ _subs b' = <[topic := default [] (_subs b !! topic)]> (_subs b)
  ∧ never_raise b'.
Proof.
  intros Hnr. cbv zeta. unfold publish, subs_getitem.
  destruct (_subs b !! topic) as [cbs|] eqn:Hcbs; cbn [default from_option id].
  - pose proof (run_callbacks_never_raise cbs m w (Hnr topic cbs Hcbs)) as Hr.
    destruct (run_callbacks cbs m w) as [[n r] w']. cbn in Hr. subst r.
    cbn. split; [done|]. split; [by rewrite insert_id|]. exact Hnr.
  - cbn. split; [done|]. split; [done|].
    intros t cbs. cbn. destruct (decide (t = topic)) as [->|Hne].
    + rewrite lookup_insert_eq. intros [= <-]. constructor.
    + rewrite lookup_insert_ne by done. apply Hnr.
Qed.

(** The bus keeps every message.  When no subscriber raises, a sequence
    of [publish] calls appends each message to the history in publish
    order, whether or not its topic has subscribers, and the history is
    never trimmed.  [get_recent] returns the last [limit] entries for a
    positive [limit], but the whole history for a [limit] of zero.
    Publishing never changes who is subscribed, though it leaves an
    empty subscriber list behind for a topic that had none. *)
Theorem history_records_every_publish (msgs : list (string * M)) b (w : W) :
  never_raise b →
  let b' := (publish_all msgs b w).1 in
  _queue b' = _queue b ++ msgs
  ∧ get_recent 0 b' = _queue b ++ msgs
  ∧ (∀ k, get_recent (S k) b' = Ring.last_n (S k) (_queue b ++ msgs))
  ∧ (∀ topic, default [] (_subs b' !! topic) = default [] (_subs b !! topic))
  ∧ dom (_subs b') = dom (_subs b) ∪ list_to_set msgs.*1.
Proof.
  intros Hnr b'.
  assert (_queue b' = _queue b ++ msgs
          ∧ (∀ topic, default [] (_subs b' !! topic)
                      = default [] (_subs b !! topic))
          ∧ dom (_subs b') = dom (_subs b) ∪ list_to_set msgs.*1)
    as (Hq & Hsubs & Hdom).
  { subst b'. unfold publish_all. revert b w Hnr.
    induction msgs as [|[topic m] msgs IH]; intros b w Hnr.
    - cbn. rewrite app_nil_r. split; [done|]. split; [done|].
      by rewrite union_empty_r_L.
    - cbn [foldl fst snd].
      destruct (publish_never_raise topic m b w Hnr) as (Hq1 & Hs1 & Hnr1).
      destruct (IH _ (world_after (publish topic m b w)) Hnr1)
        as (Hq & Hs & Hd).
      rewrite Hq, Hq1, <- app_assoc. split; [done|]. split.
      + intros t. rewrite Hs, Hs1. destruct (decide (t = topic)) as [->|Hne].
        * by rewrite lookup_insert_eq.
        * by rewrite lookup_insert_ne.
      + rewrite Hd, Hs1, dom_insert_L. cbn [fmap list_fmap fst list_to_set].
        apply set_eq. intros x.
        rewrite !elem_of_union, elem_of_singleton. tauto. }
  split; [exact Hq|]. split; [by rewrite <- Hq|]. split; [|by split].
  intros k. unfold get_recent, Ring.last_n. by rewrite Hq.
Qed.

End history_spec.

Lemma history_records_every_publish_witness :
  get_recent 0
    (publish_all [("events", "a"); ("quotes", "b"); ("events", "c")]
       (subscribe "events" (logs 1) new) []).1
  = [("events", "a"); ("quotes", "b"); ("events", "c")].
Proof.
  destruct (history_records_every_publish
              [("events", "a"); ("quotes", "b"); ("events", "c")]
              (subscribe "events" (logs 1) new) [])
    as (_ & Hall & _).
  - assert (_subs (subscribe "events" (logs 1) new)
            = <["events" := [logs 1]]> (<["events" := []]> ∅)) as Hs
      by reflexivity.
    intros topic cbs. rewrite Hs.
    destruct (decide (topic = "events")) as [->|Hne].
    + rewrite lookup_insert_eq. intros [= <-].
      constructor; [done|constructor].
    + rewrite lookup_insert_ne by done. rewrite lookup_insert_ne by done.
      by rewrite lookup_empty.
  - exact Hall.
Defined.

End BusSpec.

(* ===================================================================== *)
(** * Properties of the registry and the snapshot hydrator *)
(* ===================================================================== *)

Module MemSpec.
Import Mem.


(** ** Registry *)

Lemma ensure_fresh (symbol : string) (reg : gmap string symrec) :
  reg !! PyStr.upper symbol = None →
  _ensure symbol reg
  = (default_record, <[PyStr.upper symbol := default_record]> reg).
Proof. intros Hnone. unfold _ensure. by rewrite Hnone. Qed.

Lemma ensure_known (symbol : string) (reg : gmap string symrec) r :
  reg !! PyStr.upper symbol = Some r → _ensure symbol reg = (r, reg).
Proof. intros Hsome. unfold _ensure. by rewrite Hsome. Qed.

Lemma ensure_lookup (symbol : string) (reg : gmap string symrec) :
  (_ensure symbol reg).2 !! PyStr.upper symbol = Some (_ensure symbol reg).1.
Proof.
  unfold _ensure. destruct (reg !! PyStr.upper symbol) eqn:Hl; cbn; [done|].
  apply lookup_insert_eq.
Qed.

Lemma ensure_insert (symbol : string) (reg : gmap string symrec) r :
  <[PyStr.upper symbol := r]> (_ensure symbol reg).2
  = <[PyStr.upper symbol := r]> reg.
Proof.
  unfold _ensure. destruct (reg !! PyStr.upper symbol); cbn; [done|].
  apply insert_insert_eq.
Qed.

(** C10. A first read of a symbol ([get_mode] or [registry[symbol]])
    stores the default record (mode COLD, no flags, all-zero snapshot)
    under the upper-cased key and so changes the registry; [get_mode]
    returns COLD; the membership test answers no and changes nothing;
    a symbol that differs only in letter case reads the same record. *)
Theorem first_read_creates_record (reg : gmap string symrec)
    (symbol : string) :
  reg !! PyStr.upper symbol = None →
  get_mode symbol reg
    = ("COLD", <[PyStr.upper symbol := default_record]> reg)
  ∧ getitem symbol reg
    = (default_record, <[PyStr.upper symbol := default_record]> reg)
  ∧ (getitem symbol reg).2 ≠ reg
  ∧ contains symbol reg = (false, reg)
  ∧ (mode default_record = "COLD" ∧ flags default_record = ∅
     ∧ dom (snapshot default_record)
       = {["spread"; "mid"; "bid_sz"; "ask_sz"; "imbalance"; "pressure"]}
     ∧ ∀ k v, snapshot default_record !! k = Some v → v = qz 0)
  ∧ (∀ other, PyStr.upper other = PyStr.upper symbol →
       getitem other reg = getitem symbol reg
       ∧ get_mode other reg = get_mode symbol reg
       ∧ contains other reg = contains symbol reg
       ∧ getitem other (getitem symbol reg).2
         = (default_record, (getitem symbol reg).2)).
Proof.
  intros Hnone.
  assert (get_mode symbol reg
    = ("COLD", <[PyStr.upper symbol := default_record]> reg)) as Hget.
  { unfold get_mode. rewrite ensure_fresh
      by (by rewrite PyStrSpec.upper_idemp).
    rewrite PyStrSpec.upper_idemp. by rewrite lookup_insert_eq. }
  assert (getitem symbol reg
    = (default_record, <[PyStr.upper symbol := default_record]> reg))
    as Hitem by (by apply ensure_fresh).
  split; [done|]. split; [done|]. split.
  { rewrite Hitem. cbn. intros Heq.
    assert (<[PyStr.upper symbol := default_record]> reg
              !! PyStr.upper symbol = None) as Hl by (by rewrite Heq).
    by rewrite lookup_insert_eq in Hl. }
  split.
  { unfold contains. rewrite Hnone.
    by rewrite bool_decide_eq_false_2 by (by intros [? ?]). }
  split.
  { split; [done|]. split; [done|]. split.
    - unfold default_record, default_snapshot. cbn [snapshot].
      rewrite !dom_insert_L, dom_empty_L. set_solver.
    - intros k v. unfold default_record, default_snapshot. cbn [snapshot].
      rewrite !lookup_insert. repeat case_decide; try congruence.
      by rewrite lookup_empty. }
  intros other Hup. split; [|split; [|split]].
  - unfold getitem, _ensure. by rewrite Hup.
  - unfold get_mode. by rewrite Hup.
  - unfold contains. by rewrite Hup.
  - rewrite Hitem. cbn. unfold getitem.
    apply ensure_known. rewrite Hup. apply lookup_insert_eq.
Qed.

Lemma first_read_creates_record_witness :
  (∅ : gmap string symrec) !! PyStr.upper "aapl" = None
  ∧ (get_mode "aapl" ∅).1 = "COLD"
  ∧ (getitem "AAPL" (get_mode "aapl" ∅).2).1 = default_record.
Proof.
  assert ((∅ : gmap string symrec) !! PyStr.upper "aapl" = None) as Hnone
    by reflexivity.
  destruct (first_read_creates_record ∅ "aapl" Hnone)
    as (Hget & Hitem & _ & _ & _ & Hcase).
  split; [exact Hnone|]. split; [by rewrite Hget|].
  destruct (Hcase "AAPL" eq_refl) as (_ & _ & _ & Hsame).
  rewrite Hitem in Hsame. rewrite Hget. cbn [fst snd] in *.
  by rewrite Hsame.
Defined.

(** [set_mode] followed by [get_mode]: the mode read back is the
    upper-cased mode that was set, under any spelling of the symbol that
    differs only in letter case; no value is rejected; the rest of the
    record and all other records are as before, and [get_all_modes]
    reports the new mode. *)
Theorem set_mode_then_get_mode (symbol other md : string)
    (reg : gmap string symrec) :
  PyStr.upper other = PyStr.upper symbol →
  get_mode other (set_mode symbol md reg)
    = (PyStr.upper md, set_mode symbol md reg)
  ∧ get_all_modes (set_mode symbol md reg) !! PyStr.upper symbol
    = Some (PyStr.upper md)
  ∧ set_mode symbol md reg !! PyStr.upper symbol
    = Some (with_mode (PyStr.upper md) (getitem symbol reg).1)
  ∧ (∀ k, k ≠ PyStr.upper symbol →
       set_mode symbol md reg !! k = reg !! k).
Proof.
  intros Hup.
  assert (set_mode symbol md reg
          = alter (with_mode (PyStr.upper md)) (PyStr.upper symbol)
                  (_ensure symbol reg).2) as Hset.
  { unfold set_mode, _ensure. rewrite PyStrSpec.upper_idemp.
    by destruct (reg !! PyStr.upper symbol). }
  assert (set_mode symbol md reg !! PyStr.upper symbol
          = Some (with_mode (PyStr.upper md) (getitem symbol reg).1)) as Hl.
  { rewrite Hset, lookup_alter_eq. unfold getitem.
    by rewrite ensure_lookup. }
  split; [|split; [|split]].
  - unfold get_mode. rewrite Hup.
    rewrite (ensure_known (PyStr.upper symbol) _ _)
      by (rewrite PyStrSpec.upper_idemp; exact Hl).
    by rewrite Hl.
  - unfold get_all_modes. by rewrite lookup_fmap, Hl.
  - exact Hl.
  - intros k Hk. rewrite Hset, lookup_alter_ne by done.
    unfold _ensure. destruct (reg !! PyStr.upper symbol); cbn; [done|].
    by rewrite lookup_insert_ne.
Qed.

Lemma set_mode_then_get_mode_witness :
  (get_mode "aapl" (set_mode "Aapl" "warm" ∅)).1 = "WARM".
Proof.
  destruct (set_mode_then_get_mode "Aapl" "aapl" "warm" ∅ eq_refl)
    as (Hget & _).
  rewrite Hget. reflexivity.
Defined.

(** A record, once created, stays: no registry method and no hydration
    removes a key. *)
Theorem registry_keys_persist {pc : PyConv} (symbol md : string)
    (value : symrec) (quote : gmap string pyval) (reg : gmap string symrec) :
  dom reg ⊆ dom (getitem symbol reg).2
  ∧ dom reg ⊆ dom (get_mode symbol reg).2
  ∧ dom reg ⊆ dom (set_mode symbol md reg)
  ∧ dom reg ⊆ dom (setitem symbol value reg)
  ∧ dom reg ⊆ dom (contains symbol reg).2
  ∧ dom reg ⊆ dom (hydrate_snapshot symbol quote reg).2.
Proof.
  assert (∀ s, dom reg ⊆ dom (_ensure s reg).2) as Hens.
  { intros s. unfold _ensure. destruct (reg !! PyStr.upper s); cbn; [done|].
    rewrite dom_insert. set_solver. }
  split; [apply Hens|]. split.
  { unfold get_mode. specialize (Hens (PyStr.upper symbol)).
    by destruct (_ensure (PyStr.upper symbol) reg). }
  split.
  { unfold set_mode. specialize (Hens (PyStr.upper symbol)).
    destruct (_ensure (PyStr.upper symbol) reg). by rewrite dom_alter. }
  split; [unfold setitem; rewrite dom_insert; set_solver|].
  split; [done|].
  unfold hydrate_snapshot, getitem. specialize (Hens symbol).
  destruct (_ensure symbol reg) as [sreg reg1]. cbn [snd] in Hens.
  destruct (quote_field quote "bid" "bid_price");
    destruct (quote_field quote "ask" "ask_price");
    destruct (quote_field quote "buy_volume" "bid_size");
    destruct (quote_field quote "sell_volume" "ask_size"); cbn [snd];
    try done; unfold store; rewrite dom_insert; set_solver.
Qed.

(** ** Bounds on the derived features *)







(** ** Hydrator *)

Section hydrate_spec.
Context {pc : PyConv}.

(** What a successful [hydrate_snapshot] leaves behind. *)
Lemma hydrate_done (symbol : string) (quote : gmap string pyval)
    (reg : gmap string symrec) (bid ask bid_sz ask_sz : Qc) :
  quote_field quote "bid" "bid_price" = Some bid →
  quote_field quote "ask" "ask_price" = Some ask →
  quote_field quote "buy_volume" "bid_size" = Some bid_sz →
  quote_field quote "sell_volume" "ask_size" = Some ask_sz →
  hydrate_snapshot symbol quote reg
  = (Done,
     <[PyStr.upper symbol :=
         hydrated (_compute_features bid bid_sz ask ask_sz)
                  (dict_get quote "timestamp" PNone)
                  (getitem symbol reg).1]> reg).
Proof.
  intros Hb Ha Hbs Has. unfold hydrate_snapshot.
  destruct (getitem symbol reg) as [sreg reg1] eqn:Hget.
  rewrite Hb, Ha, Hbs, Has. cbn [fst]. f_equal. unfold store.
  replace reg1 with (_ensure symbol reg).2
    by (unfold getitem in Hget; by rewrite Hget).
  by rewrite ensure_insert.
Qed.

Lemma features_lookup (bid bid_sz ask ask_sz : Qc) (old : gmap string Qc) :
  let feats := _compute_features bid bid_sz ask ask_sz in
  let spread := py_max (qz 0) (ask - bid)%Qc in
  (feats ∪ old) !! "spread" = Some spread
  ∧ (feats ∪ old) !! "mid"
    = Some (if bool_decide (qz 0 < spread)%Qc
            then ((ask + bid) / qz 2)%Qc else bid)
  ∧ (feats ∪ old) !! "imbalance"
    = Some (if bool_decide (EPS < bid_sz + ask_sz)%Qc
            then ((bid_sz - ask_sz) / (bid_sz + ask_sz))%Qc else qz 0)
  ∧ (feats ∪ old) !! "bid_sz" = Some bid_sz
  ∧ (feats ∪ old) !! "ask_sz" = Some ask_sz.
Proof.
  intros feats spread.
  repeat split; apply lookup_union_Some_l; subst feats;
    unfold _compute_features; by simplify_map_eq.
Qed.



Lemma quote_field_missing (quote : gmap string pyval) (k1 k2 : string) :
  quote !! k1 = None → quote !! k2 = None →
  quote_field quote k1 k2 = Some (qz 0).
Proof. intros Hk1 Hk2. unfold quote_field, dict_get. by rewrite Hk1, Hk2. Qed.


(** A side that is missing from the quote (under both of its names) is
    read as 0.0: the quote hydrates exactly like the same quote with that
    side set to 0.0. *)
Theorem hydrate_missing_side_is_zero (symbol : string)
    (quote : gmap string pyval) (reg : gmap string symrec) :
  (quote !! "bid" = None → quote !! "bid_price" = None →
   hydrate_snapshot symbol quote reg
   = hydrate_snapshot symbol (<["bid" := PFloat (qz 0)]> quote) reg)
  ∧ (quote !! "ask" = None → quote !! "ask_price" = None →
     hydrate_snapshot symbol quote reg
     = hydrate_snapshot symbol (<["ask" := PFloat (qz 0)]> quote) reg).
Proof.
  split; intros H1 H2; unfold hydrate_snapshot, quote_field, dict_get;
    rewrite ?lookup_insert_eq, ?lookup_insert_ne, ?H1, ?H2 by done;
    reflexivity.
Qed.

(** With no bid side and a positive ask, the snapshot is rewritten from
    bid = 0: spread = ask, mid = ask / 2, last_price = ask / 2, and
    last_update is the timestamp of the quote. *)
Theorem hydrate_without_bid (symbol : string) (quote : gmap string pyval)
    (reg : gmap string symrec) (ask bid_sz ask_sz : Qc) :
  quote !! "bid" = None → quote !! "bid_price" = None →
  quote_field quote "ask" "ask_price" = Some ask →
  quote_field quote "buy_volume" "bid_size" = Some bid_sz →
  quote_field quote "sell_volume" "ask_size" = Some ask_sz →
  (qz 0 < ask)%Qc →
  ∃ r, hydrate_snapshot symbol quote reg
       = (Done, <[PyStr.upper symbol := r]> reg)
       ∧ snapshot r !! "spread" = Some ask
       ∧ snapshot r !! "mid" = Some (ask / qz 2)%Qc
       ∧ last_price r = Some (ask / qz 2)%Qc
       ∧ last_update r = dict_get quote "timestamp" PNone.
Proof.
  intros Hb1 Hb2 Ha Hbs Has Hpos.
  pose proof (hydrate_done symbol quote reg (qz 0) ask bid_sz ask_sz
                (quote_field_missing quote "bid" "bid_price" Hb1 Hb2)
                Ha Hbs Has) as Hd.
  destruct (features_lookup (qz 0) bid_sz ask ask_sz
              (snapshot (getitem symbol reg).1)) as (Hs & Hm & _).
  assert ((ask - qz 0)%Qc = ask) as E0
    by (unfold qz; rewrite Z2Qc_inj_0; ring).
  assert ((ask + qz 0)%Qc = ask) as E1
    by (unfold qz; rewrite Z2Qc_inj_0; ring).
  rewrite E0 in Hs, Hm. rewrite E1 in Hm.
  assert (py_max (qz 0) ask = ask) as E2
    by (unfold py_max; by rewrite bool_decide_eq_true_2).
  rewrite E2 in Hs, Hm. rewrite bool_decide_eq_true_2 in Hm by done.
  eexists. split; [exact Hd|]. cbn [snapshot last_price last_update hydrated].
  done.
Qed.

(** A crossed or locked quote (ask <= bid) is hydrated, not rejected:
    spread = 0, mid = bid and last_price = bid. *)
Theorem hydrate_crossed_quote (symbol : string) (quote : gmap string pyval)
    (reg : gmap string symrec) (bid ask bid_sz ask_sz : Qc) :
  quote_field quote "bid" "bid_price" = Some bid →
  quote_field quote "ask" "ask_price" = Some ask →
  quote_field quote "buy_volume" "bid_size" = Some bid_sz →
  quote_field quote "sell_volume" "ask_size" = Some ask_sz →
  (ask ≤ bid)%Qc →
  ∃ r, hydrate_snapshot symbol quote reg
       = (Done, <[PyStr.upper symbol := r]> reg)
       ∧ snapshot r !! "spread" = Some (qz 0)
       ∧ snapshot r !! "mid" = Some bid
       ∧ last_price r = Some bid.
Proof.
  intros Hb Ha Hbs Has Hle.
  pose proof (hydrate_done symbol quote reg bid ask bid_sz ask_sz
                Hb Ha Hbs Has) as Hd.
  destruct (features_lookup bid bid_sz ask ask_sz
              (snapshot (getitem symbol reg).1)) as (Hs & Hm & _).
  assert (py_max (qz 0) (ask - bid)%Qc = qz 0) as E.
  { unfold py_max. rewrite bool_decide_eq_false_2; [done|].
    apply Qcle_not_lt. unfold qz. rewrite Z2Qc_inj_0.
    apply (Qcplus_le_mono_r _ _ bid).
    by replace (ask - bid + bid)%Qc with ask by ring;
       replace (0 + bid)%Qc with bid by ring. }
  rewrite E in Hs, Hm.
  rewrite (bool_decide_eq_false_2 (qz 0 < qz 0)%Qc) in Hm
    by (apply Qcle_not_lt, Qcle_refl).
  eexists. split; [exact Hd|]. cbn [snapshot last_price hydrated]. done.
Qed.

(** Hydrating one symbol leaves every other record alone and keeps the
    record of the symbol: its mode, flags and last quote survive; when a
    field does not convert, nothing but the fetch of the record has
    happened. *)
Theorem hydrate_frame (symbol : string) (quote : gmap string pyval)
    (reg : gmap string symrec) :
  let out := hydrate_snapshot symbol quote reg in
  (∀ k, k ≠ PyStr.upper symbol → out.2 !! k = reg !! k)
  ∧ (∃ r, out.2 !! PyStr.upper symbol = Some r
          ∧ mode r = mode (getitem symbol reg).1
          ∧ flags r = flags (getitem symbol reg).1
          ∧ last_quote r = last_quote (getitem symbol reg).1)
  ∧ (out.1 = Raises → out.2 = (getitem symbol reg).2).
Proof.
  cbv zeta. unfold hydrate_snapshot.
  pose proof (ensure_lookup symbol reg) as Hl.
  assert (∀ k, k ≠ PyStr.upper symbol →
            (_ensure symbol reg).2 !! k = reg !! k) as Hother.
  { intros k Hk. unfold _ensure.
    destruct (reg !! PyStr.upper symbol); cbn; [done|].
    by rewrite lookup_insert_ne. }
  unfold getitem in *. destruct (_ensure symbol reg) as [sreg reg1].
  cbn [fst snd] in *.
  destruct (quote_field quote "bid" "bid_price");
    destruct (quote_field quote "ask" "ask_price");
    destruct (quote_field quote "buy_volume" "bid_size");
    destruct (quote_field quote "sell_volume" "ask_size"); cbn [fst snd];
    (split; [|split]); try done; try (by eauto);
    try (intros k Hk; unfold store; by rewrite lookup_insert_ne, Hother);
    unfold store; rewrite lookup_insert_eq; by eexists.
Qed.

End hydrate_spec.


Lemma hydrate_missing_side_is_zero_witness :
  no_bid_quote !! "bid" = None ∧ no_bid_quote !! "bid_price" = None
  ∧ hydrate_snapshot (pc:=strict_conv) "AAPL" no_bid_quote aapl_known
    = hydrate_snapshot (pc:=strict_conv) "AAPL"
        (<["bid" := PFloat (qz 0)]> no_bid_quote) aapl_known.
Proof.
  split; [reflexivity|]. split; [reflexivity|].
  apply (proj1 (hydrate_missing_side_is_zero (pc:=strict_conv)
                  "AAPL" no_bid_quote aapl_known)); reflexivity.
Defined.

Lemma hydrate_without_bid_witness :
  ∃ r, hydrate_snapshot (pc:=strict_conv) "AAPL" no_bid_quote aapl_known
       = (Done, <["AAPL" := r]> aapl_known)
       ∧ last_price r = Some (qc 10 1 / qz 2)%Qc
       ∧ last_update r = PInt 5.
Proof.
  destruct (hydrate_without_bid (pc:=strict_conv) "AAPL" no_bid_quote
              aapl_known (qc 10 1) (qz 1) (qz 1)
              eq_refl eq_refl eq_refl eq_refl eq_refl)
    as (r & Hd & _ & _ & Hlp & Hlu).
  { apply (bool_decide_unpack _). vm_compute. exact I. }
  exists r. split; [exact Hd|]. split; [exact Hlp|exact Hlu].
Defined.

Lemma hydrate_crossed_quote_witness :
  ∃ r, hydrate_snapshot (pc:=strict_conv) "AAPL" crossed_quote aapl_known
       = (Done, <["AAPL" := r]> aapl_known)
       ∧ snapshot r !! "spread" = Some (qz 0)
       ∧ last_price r = Some (qc 101 1).
Proof.
  destruct (hydrate_crossed_quote (pc:=strict_conv) "AAPL" crossed_quote
              aapl_known (qc 101 1) (qc 100 1) (qz 1) (qz 1)
              eq_refl eq_refl eq_refl eq_refl)
    as (r & Hd & Hs & _ & Hlp).
  { apply (bool_decide_unpack _). vm_compute. exact I. }
  exists r. split; [exact Hd|]. split; [exact Hs|exact Hlp].
Defined.

End MemSpec.

(* ===================================================================== *)
(** * Properties of the quote ingestion process *)
(* ===================================================================== *)

Module QuoteStreamSpec.
Import QuoteStream.

Section quotes_spec.
Context {pc : PyConv}.

(** [_normalize_quote] succeeds exactly when the six required fields are
    present and convert.  It then copies them under the normalized names,
    whatever the order of bid and ask (a crossed quote passes), adds [ex]
    only for an integer [x] and [cond] only for a list [c], and writes no
    other key. *)
Theorem normalize_quote_fields (ev : gmap string pyval) :
  (is_Some (_normalize_quote ev) ↔ required_ok ev)
  ∧ (∀ vsym bp bs ap aS ts,
       ev !! "sym" = Some vsym →
       ev !! "bp" ≫= py_float = Some bp →
       ev !! "bs" ≫= py_int = Some bs →
       ev !! "ap" ≫= py_float = Some ap →
       ev !! "as" ≫= py_int = Some aS →
       ev !! "t" ≫= py_int = Some ts →
       ∃ out, _normalize_quote ev = Some out
         ∧ out !! "type" = Some (PStr "quote")
         ∧ out !! "symbol" = Some (PStr (py_str vsym))
         ∧ out !! "bid" = Some (PFloat bp)
         ∧ out !! "bsize" = Some (PInt bs)
         ∧ out !! "ask" = Some (PFloat ap)
         ∧ out !! "asize" = Some (PInt aS)
         ∧ out !! "ts" = Some (PInt ts)
         ∧ out !! "ex" = (if is_int (dict_get ev "x" PNone)
                          then Some (dict_get ev "x" PNone) else None)
         ∧ out !! "cond" = (if is_list (dict_get ev "c" PNone)
                            then Some (dict_get ev "c" PNone) else None)
         ∧ dom out ⊆ {["type"; "symbol"; "bid"; "bsize"; "ask"; "asize";
                       "ts"; "ex"; "cond"]}).
Proof.
  split.
  - unfold required_ok, _normalize_quote.
    destruct (ev !! "sym") as [vsym|]; cbn;
      [|split; [intros [? ?]; done|intros ([? ?] & _); done]].
    destruct (ev !! "bp" ≫= py_float) as [bp|]; cbn;
      [|split; [intros [? ?]; done|intros (_ & [? ?] & _); done]].
    destruct (ev !! "bs" ≫= py_int) as [bs|]; cbn;
      [|split; [intros [? ?]; done|intros (_ & _ & [? ?] & _); done]].
    destruct (ev !! "ap" ≫= py_float) as [ap|]; cbn;
      [|split; [intros [? ?]; done|intros (_ & _ & _ & [? ?] & _); done]].
    destruct (ev !! "as" ≫= py_int) as [aS|]; cbn;
      [|split; [intros [? ?]; done
               |intros (_ & _ & _ & _ & [? ?] & _); done]].
    destruct (ev !! "t" ≫= py_int) as [ts|]; cbn;
      [|split; [intros [? ?]; done
               |intros (_ & _ & _ & _ & _ & [? ?]); done]].
    split; [intros _; repeat split; by eexists|intros _; by eexists].
  - intros vsym bp bs ap aS ts Hsym Hbp Hbs Hap Has Hts.
    unfold _normalize_quote. rewrite Hsym, Hbp, Hbs, Hap, Has, Hts. cbn.
    eexists. split; [reflexivity|].
    destruct (is_int (dict_get ev "x" PNone));
      destruct (is_list (dict_get ev "c" PNone));
      repeat (split; [by simplify_map_eq|]);
      rewrite ?dom_insert_L, dom_empty_L; set_unfold; intros x; tauto.
Qed.

(** A worker publishes, in queue order, the normalized form of exactly
    the events that normalize, and [_processed] counts them; an event that
    does not normalize is skipped and leaves no trace. *)
Theorem worker_publishes_normalized (items : list (gmap string pyval))
    (w : worker) :
  published (_worker_run items w)
    = published w ++ omap _normalize_quote items
  ∧ _processed (_worker_run items w)
    = (_processed w + length (omap _normalize_quote items))%nat.
Proof.
  revert w. induction items as [|item items IH]; intros w.
  - cbn. by rewrite app_nil_r, Nat.add_0_r.
  - unfold _worker_run in *. cbn [foldl].
    destruct (IH (_worker_step item w)) as [-> ->].
    unfold _worker_step. cbn [omap list_omap].
    destruct (_normalize_quote item) as [out|]; cbn.
    + rewrite <- app_assoc. split; [done|lia].
    + done.
Qed.

End quotes_spec.

Lemma normalize_quote_fields_witness :
  ∃ out, _normalize_quote (pc:=strict_conv) crossed_event = Some out
         ∧ out !! "bid" = Some (PFloat (qc 101 1))
         ∧ out !! "ask" = Some (PFloat (qc 100 1)).
Proof.
  destruct (proj2 (normalize_quote_fields (pc:=strict_conv) crossed_event)
              (PStr "AAPL") (qc 101 1) 1 (qc 100 1) 1 1700000000000
              eq_refl eq_refl eq_refl eq_refl eq_refl eq_refl)
    as (out & Hout & _ & _ & Hbid & _ & Hask & _).
  exists out. split; [exact Hout|]. split; [exact Hbid|exact Hask].
Defined.

End QuoteStreamSpec.

(* ===================================================================== *)
(** * From the bridge's push to the clients' subscription sets *)
(* ===================================================================== *)

Module PushSpec.
Import Bridge.

Lemma compute_effective_ext (clock : string → Qc) (b b' : bridge) :
  state_by_source b = state_by_source b' →
  chart_ts b = chart_ts b' →
  _compute_effective b clock = _compute_effective b' clock.
Proof.
  destruct b, b'. cbn [state_by_source chart_ts]. intros -> ->.
  reflexivity.
Qed.

Lemma effective_sets_disjoint (clock : string → Qc) (b : bridge) :
  (_compute_effective b clock).1 ∩ (_compute_effective b clock).2 = ∅.
Proof.
  unfold _compute_effective. cbn [fst snd]. apply set_eq. intros x.
  rewrite elem_of_intersection, !elem_of_filter. split.
  - intros [[Hw _] [Hh _]]. rewrite Hw in Hh. discriminate.
  - intros Hx. by apply not_elem_of_empty in Hx.
Qed.

(** [_recompute_and_push] publishes exactly when the effective sets
    differ from the ones pushed last: then it appends one replace message
    for channel T (the HOT symbols, sorted) and one for channel Q (the
    WARM and HOT symbols, sorted) and counts one push; otherwise it leaves
    the bridge as it is.  The two effective sets are disjoint, and a
    second recompute at the same clock readings does nothing. *)
Theorem recompute_publishes_on_change (clock : string → Qc) (b : bridge) :
  let b1 := _recompute_and_push clock b in
  _recompute_and_push clock b1 = b1
  ∧ eff_warm b1 ∩ eff_hot b1 = ∅
  ∧ (eff_warm b1 = eff_warm b → eff_hot b1 = eff_hot b → b1 = b)
  ∧ (eff_warm b1 ≠ eff_warm b ∨ eff_hot b1 ≠ eff_hot b →
     control_out b1 = control_out b ++
       [ ("T", PyStr.sorted (elements (eff_hot b1)));
         ("Q", PyStr.sorted (elements (eff_warm b1 ∪ eff_hot b1))) ]
     ∧ push_out b1 = S (push_out b)).
Proof.
  intros b1.
  destruct (BridgeSpec.recompute_eff clock b) as [Hw Hh].
  fold b1 in Hw, Hh.
  pose proof (effective_sets_disjoint clock b) as Hdis.
  assert (state_by_source b1 = state_by_source b ∧ chart_ts b1 = chart_ts b)
    as [Hs Hc].
  { subst b1. unfold _recompute_and_push.
    destruct (_compute_effective b clock) as [w h].
    by destruct (bool_decide (w ≠ eff_warm b) || bool_decide (h ≠ eff_hot b)). }
  pose proof (compute_effective_ext clock b1 b Hs Hc) as Hsame.
  split; [|split; [|split]].
  - unfold _recompute_and_push at 1. rewrite Hsame.
    destruct (_compute_effective b clock) as [w h]. cbn [fst snd] in *.
    rewrite Hw, Hh.
    rewrite (bool_decide_eq_false_2 (w ≠ w)) by (by intros ?).
    by rewrite (bool_decide_eq_false_2 (h ≠ h)) by (by intros ?).
  - by rewrite Hw, Hh.
  - intros Hew Heh. subst b1. unfold _recompute_and_push in *.
    destruct (_compute_effective b clock) as [w h]. cbn [fst snd] in *.
    destruct (bool_decide (w ≠ eff_warm b)) eqn:E1;
      destruct (bool_decide (h ≠ eff_hot b)) eqn:E2; cbn in *; try done.
    + apply bool_decide_eq_true_1 in E1. by destruct E1.
    + apply bool_decide_eq_true_1 in E1. by destruct E1.
    + apply bool_decide_eq_true_1 in E2. by destruct E2.
  - intros Hchg. subst b1. unfold _recompute_and_push in *.
    destruct (_compute_effective b clock) as [w h]. cbn [fst snd] in *.
    destruct (bool_decide (w ≠ eff_warm b)) eqn:E1;
      destruct (bool_decide (h ≠ eff_hot b)) eqn:E2; cbn in *; try done.
    apply bool_decide_eq_false_1 in E1, E2.
    destruct (decide (w = eff_warm b)), (decide (h = eff_hot b));
      try done. subst. by destruct Hchg.
Qed.

Lemma recompute_publishes_on_change_witness :
  control_out (_recompute_and_push (λ _, qz 140) sample)
  = [("T", ["TSLA"]); ("Q", ["MSFT"; "NVDA"; "TSLA"])].
Proof.
  destruct (recompute_publishes_on_change (λ _, qz 140) sample)
    as (_ & _ & _ & Hpush).
  destruct Hpush as [Hout _].
  - right. apply (bool_decide_unpack _). vm_compute. exact I.
  - rewrite Hout. vm_compute. reflexivity.
Defined.

(** What a client holds after a replace message for its own channel. *)
Lemma replace_with_sorted_set (X : gset string) (role : string)
    (c : WS.client) :
  (∀ s, s ∈ X → WS.is_symbol s) →
  WS.subs_get role
    (WS.replace_with (PyStr.sorted (elements X)) role c) = X.
Proof.
  intros Hsym.
  destruct (WSSpec.sorted_lists_set X) as (Hin & _ & _).
  destruct (WSSpec.replace_with_unfold (PyStr.sorted (elements X)) role c)
    as (_ & Hsubs & _).
  unfold WS.subs_get. rewrite Hsubs, lookup_insert_eq. cbn.
  rewrite WSSpec.normalize_symbols.
  - apply set_eq. intros s. rewrite elem_of_list_to_set. apply Hin.
  - apply list.Forall_forall. intros s Hs. apply Hsym, Hin, Hs.
Qed.

(** The control messages of a push, taken by the two ingestion processes:
    the trade process ends up subscribed to exactly the HOT symbols on
    channel T and the quote process to exactly the WARM and HOT symbols on
    channel Q, whatever they were subscribed to before; each process
    ignores the message meant for the other.  The symbols must be in
    normal form (upper case, no surrounding blanks), since the client
    normalizes what it receives. *)
Theorem push_reaches_clients (hot warmhot : gset string) (b : bridge)
    (ct cq : WS.client) :
  (∀ s, s ∈ hot ∪ warmhot → WS.is_symbol s) →
  ∃ lt lq,
    control_out (_publish_control hot warmhot b)
    = control_out b ++ [("T", lt); ("Q", lq)]
    ∧ WS.subs_get "T" (Control._control_step "T" "replace" "T" lt ct).2 = hot
    ∧ WS.subs_get "Q" (Control._control_step "Q" "replace" "Q" lq cq).2
      = warmhot
    ∧ Control._control_step "T" "replace" "Q" lq ct = (true, ct)
    ∧ Control._control_step "Q" "replace" "T" lt cq = (true, cq).
Proof.
  intros Hsym.
  exists (PyStr.sorted (elements hot)), (PyStr.sorted (elements warmhot)).
  split; [reflexivity|].
  split; [|split; [|split; reflexivity]].
  - change (Control._control_step "T" "replace" "T"
              (PyStr.sorted (elements hot)) ct)
      with (true, WS.replace_with (PyStr.sorted (elements hot)) "T" ct).
    cbn [snd]. apply replace_with_sorted_set.
    intros s Hs. apply Hsym, elem_of_union_l, Hs.
  - change (Control._control_step "Q" "replace" "Q"
              (PyStr.sorted (elements warmhot)) cq)
      with (true, WS.replace_with (PyStr.sorted (elements warmhot)) "Q" cq).
    cbn [snd]. apply replace_with_sorted_set.
    intros s Hs. apply Hsym, elem_of_union_r, Hs.
Qed.

Lemma push_reaches_clients_witness :
  ∃ lt lq,
    control_out (_publish_control {["TSLA"]} {["MSFT"; "TSLA"]} sample)
    = control_out sample ++ [("T", lt); ("Q", lq)]
    ∧ WS.subs_get "Q"
        (Control._control_step "Q" "replace" "Q" lq WS.sample).2
      = {["MSFT"; "TSLA"]}.
Proof.
  destruct (push_reaches_clients {["TSLA"]} {["MSFT"; "TSLA"]} sample
              WS.sample WS.sample)
    as (lt & lq & Hout & _ & Hq & _).
  - intros s Hs.
    assert (s = "TSLA" ∨ s = "MSFT") as [-> | ->].
    { revert Hs. rewrite !elem_of_union, !elem_of_singleton.
      intros [?|[?|?]]; auto. }
    + repeat split.
    + repeat split.
  - exists lt, lq. split; [exact Hout|exact Hq].
Defined.

End PushSpec.

(* ===================================================================== *)
(** * Properties of the event dispatch *)
(* ===================================================================== *)

Module DispatchSpec.
Import Dispatch.

Section dispatch_spec.
Context {pc : PyConv} {W : Type}.
Implicit Types (p : progress W) (hs : list (handler W)).




Lemma resub_all_unfold (order : list string) : ∀ c : WS.client,
  WS._resub_all order c = WS.enqueue_all (WS.resub_msgs order (WS._subs c)) c.
Proof.
  unfold WS._resub_all, WS.enqueue_all, WS.resub_msgs.
  induction order as [|ch order IH]; intros c; [done|].
  cbn [foldl mbind list_bind]. rewrite foldl_app.
  destruct (WS._subs c !! ch) as [syms|]; [|apply IH].
  destruct (PyStr.sorted (elements syms)) as [|s l]; [apply IH|].
  cbn [foldl]. rewrite IH. by rewrite WSSpec.enqueue_subs.
Qed.

Lemma enqueue_all_history (ps : list WS.payload) : ∀ c : WS.client,
  WS.enqueued (WS.enqueue_all ps c) = WS.enqueued c ++ ps
  ∧ WS._subs (WS.enqueue_all ps c) = WS._subs c
  ∧ (WS.has_room c (length ps) →
     WS._sendq (WS.enqueue_all ps c) = WS._sendq c ++ ps
     ∧ WS.dropped (WS.enqueue_all ps c) = WS.dropped c).
Proof.
  unfold WS.enqueue_all.
  induction ps as [|q ps IH]; intros c; cbn [foldl length].
  - rewrite !app_nil_r. done.
  - destruct (IH (WS._enqueue q c)) as (H1 & H2 & H3).
    rewrite H1, H2, WSSpec.enqueue_history, WSSpec.enqueue_subs, <- app_assoc.
    split; [done|]. split; [done|]. intros Hroom.
    destruct (WSSpec.enqueue_room q c _ Hroom) as (Hq & Hd & Hroom').
    destruct (H3 Hroom') as [H4 H5].
    by rewrite H4, H5, Hq, Hd, <- app_assoc.
Qed.

(** A status event never reaches a handler, not even a wildcard one or
    one registered for the tag it carries.  When it reports a successful
    authentication, the client asks again for all it is subscribed to:
    one subscribe message per channel with a non-empty set, its symbols
    sorted, in the order of the channels; the subscription table itself
    stays as it is, and with room in the send queue the messages are
    queued behind what is already there.  Any other status event changes
    nothing. *)
Theorem auth_success_resubscribes
    (handlers : gmap string (list (handler W))) (order : list string)
    (ev : gmap string pyval) p :
  is_status_event ev →
  let p' := dispatch_event handlers order ev p in
  let msgs := WS.resub_msgs order (WS._subs (client_of p)) in
  world p' = world p ∧ invoked p' = invoked p ∧ errors p' = errors p
  ∧ WS._subs (client_of p') = WS._subs (client_of p)
  ∧ (is_auth_success ev = false → p' = p)
  ∧ (is_auth_success ev = true →
       WS.enqueued (client_of p') = WS.enqueued (client_of p) ++ msgs
       ∧ Forall (λ m, WS.action m = "subscribe") msgs
       ∧ (WS.has_room (client_of p) (length msgs) →
          WS._sendq (client_of p') = WS._sendq (client_of p) ++ msgs
          ∧ WS.dropped (client_of p') = WS.dropped (client_of p))).
Proof.
  intros Hst p' msgs. subst p'. unfold dispatch_event.
  assert (bool_decide (event_tag ev = "")
          || bool_decide (event_tag ev = "status") = true) as ->.
  { destruct Hst as [->| ->]; [done|]. by rewrite orb_true_r. }
  destruct (is_auth_success ev); cbn [world invoked errors client_of].
  - rewrite resub_all_unfold. fold msgs.
    destruct (enqueue_all_history msgs (client_of p)) as (H1 & H2 & H3).
    split; [done|]. split; [done|]. split; [done|]. split; [done|].
    split; [done|]. intros _. split; [done|]. split; [|done].
    subst msgs. unfold WS.resub_msgs. apply Forall_bind, Forall_true.
    intros ch. unfold compose.
    destruct (WS._subs (client_of p) !! ch) as [syms|]; [|by constructor].
    destruct (PyStr.sorted (elements syms)); by repeat constructor.
  - repeat (split; [done|]). done.
Qed.

End dispatch_spec.

Lemma auth_success_resubscribes_witness :
  WS.enqueued
    (client_of (dispatch_event (pc:=strict_conv) sample_handlers
                  ["T"; "Q"; "A"] auth_event
                  {| client_of := WS.sample; world := []; invoked := 0;
                     errors := 0 |}))
  = [ {| WS.action := "auth"; WS.params := "key" |};
      {| WS.action := "subscribe"; WS.params := "T.AAPL,T.MSFT" |} ].
Proof.
  destruct (auth_success_resubscribes (pc:=strict_conv) sample_handlers
              ["T"; "Q"; "A"] auth_event
              {| client_of := WS.sample; world := []; invoked := 0;
                 errors := 0 |})
    as (_ & _ & _ & _ & _ & Hauth).
  - right. reflexivity.
  - destruct Hauth as (Henq & _); [reflexivity|].
    etrans; [exact Henq|]. vm_compute. reflexivity.
Defined.


End DispatchSpec.

(* ===================================================================== *)
(** * Properties of the bar builder *)
(* ===================================================================== *)

Module BarBuilderSpec.
Import BarBuilder.

Lemma list_max_spec (l : list Qc) : ∀ x,
  Forall (λ p, (p ≤ list_max x l)%Qc) (x :: l) ∧ list_max x l ∈ x :: l.
Proof.
  unfold list_max. induction l as [|y l IH]; intros x; cbn [foldl].
  - split; [constructor; [apply Qcle_refl|constructor]|left].
  - destruct (IH (Mem.py_max x y)) as [Hall Hin].
    apply list.Forall_cons in Hall as [Hm Hall].
    assert ((x ≤ Mem.py_max x y)%Qc ∧ (y ≤ Mem.py_max x y)%Qc
            ∧ (Mem.py_max x y = x ∨ Mem.py_max x y = y)) as (Hx & Hy & Hor).
    { unfold Mem.py_max. case_bool_decide as Hlt.
      - split; [by apply Qclt_le_weak|]. split; [apply Qcle_refl|by right].
      - split; [apply Qcle_refl|]. split; [by apply Qcnot_lt_le|by left]. }
    split.
    + constructor; [by eapply Qcle_trans|].
      constructor; [by eapply Qcle_trans|done].
    + apply elem_of_cons in Hin as [->|Hin].
      * destruct Hor as [->| ->]; [left|right; left].
      * right; by right.
Qed.

Lemma list_min_spec (l : list Qc) : ∀ x,
  Forall (λ p, (list_min x l ≤ p)%Qc) (x :: l) ∧ list_min x l ∈ x :: l.
Proof.
  unfold list_min. induction l as [|y l IH]; intros x; cbn [foldl].
  - split; [constructor; [apply Qcle_refl|constructor]|left].
  - destruct (IH (py_min x y)) as [Hall Hin].
    apply list.Forall_cons in Hall as [Hm Hall].
    assert ((py_min x y ≤ x)%Qc ∧ (py_min x y ≤ y)%Qc
            ∧ (py_min x y = x ∨ py_min x y = y)) as (Hx & Hy & Hor).
    { unfold py_min. case_bool_decide as Hlt.
      - split; [by apply Qclt_le_weak|]. split; [apply Qcle_refl|by right].
      - split; [apply Qcle_refl|]. split; [by apply Qcnot_lt_le|by left]. }
    split.
    + constructor; [by eapply Qcle_trans|].
      constructor; [by eapply Qcle_trans|done].
    + apply elem_of_cons in Hin as [->|Hin].
      * destruct Hor as [->| ->]; [left|right; left].
      * right; by right.
Qed.

Lemma column_is_Some (k : string) (ticks : list tick) :
  is_Some (column k ticks) ↔ Forall (λ t : tick, is_Some (t !! k)) ticks.
Proof. unfold column. apply mapM_is_Some. Qed.

(** What a call of [build_minute_bar] does to the buffers: the trade
    buffer of the symbol is drained, whatever the result. *)
Lemma build_minute_bar_drains (sym : string)
    (bufs : gmap string (Ring.buffer tick)) (b : Ring.buffer tick) :
  bufs !! sym = Some b →
  (build_minute_bar sym bufs).2
  = <[sym := {| Ring._active := Ring._drain b; Ring._drain := [];
                Ring._maxlen := Ring._maxlen b |}]> bufs.
Proof.
  intros Hb. unfold build_minute_bar. rewrite Hb.
  unfold Ring.get_short, Ring.drain. cbn [Ring._active Ring._drain Ring._maxlen].
  destruct (Ring._active b) as [|t ticks]; [done|].
  destruct (column "price" (t :: ticks)) as [[|p0 ps]|]; [done| |done].
  destruct (column "size" (t :: ticks)); [|done].
  by destruct (list.last (t :: ticks) ≫= (λ t0 : tick, t0 !! "timestamp")).
Qed.

(** [build_minute_bar] on the trades buffered for a symbol.  With nothing
    buffered there is no bar.  From well-formed ticks it builds the bar
    of the buffered trades: open and close are the first and last price,
    high and low are prices of the bucket that bound all its prices, the
    volume is the sum of the sizes and the timestamp that of the last
    tick.  From ticks that are not well-formed it raises.  In every case
    the read consumes the bucket: the buffered trades are gone, also when
    the call raised, and a second call right after gives no bar. *)
Theorem build_minute_bar_ohlcv (sym : string)
    (bufs : gmap string (Ring.buffer tick)) (b : Ring.buffer tick) :
  bufs !! sym = Some b →
  Ring._drain b = [] →
  let ticks := Ring._active b in
  let r := build_minute_bar sym bufs in
  r.2 = <[sym := Ring.new (Ring._maxlen b)]> bufs
  ∧ (build_minute_bar sym r.2).1 = NoBar
  ∧ (ticks = [] → r.1 = NoBar)
  ∧ (¬ well_formed ticks → r.1 = Raises)
  ∧ (ticks ≠ [] → well_formed ticks →
     ∃ (bar : bar) (prices sizes : list Qc) (t : tick),
       r.1 = Built bar
       ∧ column "price" ticks = Some prices
       ∧ column "size" ticks = Some sizes
       ∧ list.last ticks = Some t
       ∧ symbol bar = sym
       ∧ t !! "timestamp" = Some (timestamp bar)
       ∧ head prices = Some (open bar)
       ∧ list.last prices = Some (close bar)
       ∧ Forall (λ p, (low bar ≤ p ≤ high bar)%Qc) prices
       ∧ high bar ∈ prices ∧ low bar ∈ prices
       ∧ volume bar = py_sum sizes).
Proof.
  intros Hb Hd ticks r.
  assert (r.2 = <[sym := Ring.new (Ring._maxlen b)]> bufs) as Hr2.
  { subst r. rewrite (build_minute_bar_drains sym bufs b Hb), Hd. done. }
  split; [exact Hr2|]. split.
  { rewrite Hr2. unfold build_minute_bar. by rewrite lookup_insert_eq. }
  subst r ticks. unfold build_minute_bar. rewrite Hb.
  unfold Ring.get_short, Ring.drain. cbn [Ring._active Ring._drain Ring._maxlen].
  destruct (Ring._active b) as [|t0 ticks] eqn:Hact.
  { split; [done|]. split; [|done]. intros Hwf. destruct Hwf.
    split; [constructor|]. intros t. discriminate. }
  split; [done|].
  destruct (column "price" (t0 :: ticks)) as [prices|] eqn:Hp; cycle 1.
  { split; [done|]. intros _ [Hall _]. exfalso.
    assert (is_Some (column "price" (t0 :: ticks))) as [? Hs]; [|congruence].
    apply column_is_Some. eapply list.Forall_impl; [exact Hall|]. by intros ? [? _]. }
  destruct prices as [|p0 ps].
  { exfalso. unfold column in Hp. apply length_mapM in Hp. discriminate Hp. }
  destruct (column "size" (t0 :: ticks)) as [sizes|] eqn:Hs; cycle 1.
  { split; [done|]. intros _ [Hall _]. exfalso.
    assert (is_Some (column "size" (t0 :: ticks))) as [? Hs']; [|congruence].
    apply column_is_Some. eapply list.Forall_impl; [exact Hall|]. by intros ? [_ ?]. }
  destruct (list.last (t0 :: ticks)) as [t|] eqn:Hlast; cycle 1.
  { exfalso. by apply last_None in Hlast. }
  cbn [mbind option_bind].
  destruct (t !! "timestamp") as [ts|] eqn:Hts; cycle 1.
  { split; [done|]. intros _ [_ Hl]. destruct (Hl t Hlast) as [? Hx].
    congruence. }
  cbn [fst]. split.
  { intros Hnwf. destruct Hnwf. split.
    - apply list.Forall_forall. intros t' Ht'. split.
      + assert (is_Some (column "price" (t0 :: ticks))) as Hsome by by eexists.
        apply column_is_Some in Hsome.
        by apply (proj1 (list.Forall_forall _ _) Hsome).
      + assert (is_Some (column "size" (t0 :: ticks))) as Hsome by by eexists.
        apply column_is_Some in Hsome.
        by apply (proj1 (list.Forall_forall _ _) Hsome).
    - intros t' Ht'. rewrite Hlast in Ht'. injection Ht' as <-. by eexists. }
  intros _ _.
  destruct (list_max_spec ps p0) as [Hmax Hmaxin].
  destruct (list_min_spec ps p0) as [Hmin Hminin].
  eexists _, (p0 :: ps), sizes, t. cbn [symbol timestamp open high low close volume].
  split; [done|]. split; [done|]. split; [done|]. split; [done|].
  split; [done|]. split; [done|]. split; [done|]. split.
  { destruct (list.last (p0 :: ps)) eqn:Hl; [done|]. by apply last_None in Hl. }
  split; [|done].
  apply list.Forall_forall. intros p Hin. split.
  - by apply (proj1 (list.Forall_forall _ _) Hmin).
  - by apply (proj1 (list.Forall_forall _ _) Hmax).
Qed.

Lemma build_minute_bar_ohlcv_witness :
  (build_minute_bar "AAPL" (build_minute_bar "AAPL" sample).2).1 = NoBar.
Proof.
  destruct (build_minute_bar_ohlcv "AAPL" sample
              (Ring.append (mk_tick (qz 3) (qz 101) (qz 5))
                 (Ring.append (mk_tick (qz 2) (qz 99) (qz 20))
                    (Ring.append (mk_tick (qz 1) (qz 100) (qz 10))
                       (Ring.new 1000)))))
    as (_ & Hsecond & _).
  - reflexivity.
  - reflexivity.
  - exact Hsecond.
Defined.

End BarBuilderSpec.

(* ===================================================================== *)
(** * Properties of the work queue of the ingestion processes *)
(* ===================================================================== *)

Module IngestSpec.
Import Ingest.

Lemma on_event_step (ev : gmap string pyval) (p : pipeline) :
  0 < maxsize p →
  (Z.of_nat (length (_q p)) ≤ maxsize p) →
  has_sym ev = true →
  _on_event ev p
  = {| _q := Ring.deque_append (Z.to_nat (maxsize p)) (_q p) ev;
       maxsize := maxsize p; _dropped := _dropped p |}.
Proof.
  intros Hpos Hlen Hsym. unfold _on_event, put_nowait, Ring.deque_append.
  rewrite Hsym. cbn [negb].
  rewrite (bool_decide_eq_true_2 (0 < maxsize p)) by done. cbn [andb].
  rewrite length_app. cbn [length].
  case_bool_decide as Hfull.
  - rewrite (proj2 (Nat.ltb_lt _ _)) by lia.
    destruct (_q p) as [|x rest] eqn:Hq; [cbn in *; lia|].
    cbn [get_nowait app tail].
    rewrite bool_decide_eq_false_2; [done|]. cbn [length] in *. lia.
  - by rewrite (proj2 (Nat.ltb_ge _ _)) by lia.
Qed.

Lemma on_event_unbounded (ev : gmap string pyval) (p : pipeline) :
  maxsize p ≤ 0 →
  has_sym ev = true →
  _on_event ev p
  = {| _q := _q p ++ [ev]; maxsize := maxsize p; _dropped := _dropped p |}.
Proof.
  intros Hmax Hsym. unfold _on_event, put_nowait. rewrite Hsym. cbn [negb].
  by rewrite (bool_decide_eq_false_2 (0 < maxsize p)) by lia.
Qed.

(** The work queue keeps the newest events.  Events without a non-empty
    string [sym] are ignored.  Every other event is queued; when the
    queue is full the oldest queued event is discarded to make room, so
    that the queue always holds the last [maxsize] accepted events, in
    arrival order.  The events discarded this way are not counted: the
    callback alone never increments [_dropped].  A queue with [maxsize]
    zero or less keeps everything. *)
Theorem work_queue_keeps_newest (evs : list (gmap string pyval))
    (p : pipeline) :
  (0 < maxsize p → Z.of_nat (length (_q p)) ≤ maxsize p) →
  let p' := _on_events evs p in
  let accepted := filter (λ ev, has_sym ev = true) evs in
  _dropped p' = _dropped p
  ∧ maxsize p' = maxsize p
  ∧ _q p' = (if bool_decide (0 < maxsize p)
             then Ring.last_n (Z.to_nat (maxsize p)) (_q p ++ accepted)
             else _q p ++ accepted).
Proof.
  intros Hinv. cbv zeta. unfold _on_events.
  destruct (decide (0 < maxsize p)) as [Hpos|Hneg].
  - rewrite (bool_decide_eq_true_2 _ Hpos). specialize (Hinv Hpos).
    assert (_q p = Ring.last_n (Z.to_nat (maxsize p)) (_q p)) as Hq.
    { symmetry. apply RingSpec.last_n_all. lia. }
    revert Hq. generalize (_q p) at 2 3 as cur. revert p Hpos Hinv.
    induction evs as [|ev evs IH]; intros p Hpos Hinv cur Hq.
    + cbn [foldl]. rewrite filter_nil, app_nil_r. done.
    + cbn [foldl]. destruct (has_sym ev) eqn:Hsym.
      * rewrite filter_cons_True by done.
        rewrite (on_event_step ev p Hpos Hinv Hsym).
        match goal with |- context [foldl _ ?p1 evs] =>
          destruct (IH p1) with (cur := cur ++ [ev]) as (H1 & H2 & H3) end.
        { done. }
        { cbn [_q maxsize]. rewrite Hq, RingSpec.deque_append_last_n.
          rewrite RingSpec.last_n_length. lia. }
        { cbn [_q maxsize]. by rewrite Hq, RingSpec.deque_append_last_n. }
        cbn [_q maxsize _dropped] in *.
        rewrite H1, H2, H3, <- app_assoc. done.
      * rewrite filter_cons_False by (by rewrite Hsym).
        assert (_on_event ev p = p) as ->
          by (unfold _on_event; by rewrite Hsym).
        by apply IH.
  - rewrite (bool_decide_eq_false_2 _ Hneg). clear Hinv.
    revert p Hneg. induction evs as [|ev evs IH]; intros p Hneg.
    + cbn [foldl]. rewrite filter_nil, app_nil_r. done.
    + cbn [foldl]. destruct (has_sym ev) eqn:Hsym.
      * rewrite filter_cons_True by done.
        rewrite (on_event_unbounded ev p) by (done || lia).
        match goal with |- context [foldl _ ?p1 evs] =>
          destruct (IH p1) as (H1 & H2 & H3) end; [done|].
        cbn [_q maxsize _dropped] in *.
        rewrite H1, H2, H3, <- app_assoc. done.
      * rewrite filter_cons_False by (by rewrite Hsym).
        assert (_on_event ev p = p) as ->
          by (unfold _on_event; by rewrite Hsym).
        by apply IH.
Qed.

Lemma work_queue_keeps_newest_witness :
  _q (_on_events [numbered 1; numbered 2; ∅; numbered 3]
        {| _q := []; maxsize := 2; _dropped := 0 |})
  = [numbered 2; numbered 3]
  ∧ _dropped (_on_events [numbered 1; numbered 2; ∅; numbered 3]
                {| _q := []; maxsize := 2; _dropped := 0 |}) = 0%nat.
Proof.
  destruct (work_queue_keeps_newest [numbered 1; numbered 2; ∅; numbered 3]
              {| _q := []; maxsize := 2; _dropped := 0 |})
    as (Hd & _ & Hq).
  - cbn. lia.
  - split; [|exact Hd]. etrans; [exact Hq|]. vm_compute. reflexivity.
Defined.

End IngestSpec.

(* ===================================================================== *)
(** * Properties of the trade normalization *)
(* ===================================================================== *)

Module TickStreamSpec.
Import TickStream.

Section trades_spec.
Context {pc : PyConv}.

(** [_normalize_trade] gives a result exactly when [sym], [p], [s] and
    [t] are present and convert.  The result then carries them as
    [symbol] (a string), [price] (a float), [size] and [ts] (integers)
    under the type [trade]; it carries [ex] only for an integer [x], [id]
    only for an integer or string [i], [cond] only for a list [c], each
    unchanged; and it has no other key, whatever else the event holds. *)
Theorem normalize_trade_fields (ev : gmap string pyval) :
  (is_Some (_normalize_trade ev)
   ↔ is_Some (ev !! "sym") ∧ is_Some (ev !! "p" ≫= py_float)
     ∧ is_Some (ev !! "s" ≫= py_int) ∧ is_Some (ev !! "t" ≫= py_int))
  ∧ (∀ vsym price size ts,
       ev !! "sym" = Some vsym →
       ev !! "p" ≫= py_float = Some price →
       ev !! "s" ≫= py_int = Some size →
       ev !! "t" ≫= py_int = Some ts →
       ∃ out, _normalize_trade ev = Some out
         ∧ out !! "type" = Some (PStr "trade")
         ∧ out !! "symbol" = Some (PStr (py_str vsym))
         ∧ out !! "price" = Some (PFloat price)
         ∧ out !! "size" = Some (PInt size)
         ∧ out !! "ts" = Some (PInt ts)
         ∧ out !! "ex" = (if is_int (dict_get ev "x" PNone)
                          then Some (dict_get ev "x" PNone) else None)
         ∧ out !! "id" = (if is_int_or_str (dict_get ev "i" PNone)
                          then Some (dict_get ev "i" PNone) else None)
         ∧ out !! "cond" = (if is_list (dict_get ev "c" PNone)
                            then Some (dict_get ev "c" PNone) else None)
         ∧ dom out ⊆ {["type"; "symbol"; "price"; "size"; "ts"; "ex";
                       "id"; "cond"]}).
Proof.
  split.
  - unfold _normalize_trade.
    destruct (ev !! "sym") as [vsym|]; cbn;
      [|split; [intros [? ?]; done|intros ([? ?] & _); done]].
    destruct (ev !! "p" ≫= py_float) as [price|]; cbn;
      [|split; [intros [? ?]; done|intros (_ & [? ?] & _); done]].
    destruct (ev !! "s" ≫= py_int) as [size|]; cbn;
      [|split; [intros [? ?]; done|intros (_ & _ & [? ?] & _); done]].
    destruct (ev !! "t" ≫= py_int) as [ts|]; cbn;
      [|split; [intros [? ?]; done|intros (_ & _ & _ & [? ?]); done]].
    split; [intros _; repeat split; by eexists|intros _; by eexists].
  - intros vsym price size ts Hsym Hp Hs Ht.
    unfold _normalize_trade. rewrite Hsym, Hp, Hs, Ht. cbn.
    eexists. split; [reflexivity|].
    destruct (is_int (dict_get ev "x" PNone));
      destruct (is_int_or_str (dict_get ev "i" PNone));
      destruct (is_list (dict_get ev "c" PNone));
      repeat (split; [by simplify_map_eq|]);
      rewrite ?dom_insert_L, dom_empty_L; set_unfold; intros x; tauto.
Qed.

End trades_spec.

Lemma normalize_trade_fields_witness :
  ∃ out, _normalize_trade (pc:=strict_conv) odd_lot = Some out
         ∧ out !! "price" = Some (PFloat (qz 190))
         ∧ out !! "size" = Some (PInt 2)
         ∧ out !! "id" = Some (PStr "52983525029461").
Proof.
  destruct (proj2 (normalize_trade_fields (pc:=strict_conv) odd_lot)
              (PStr "AAPL") (qz 190) 2 1700000000000
              eq_refl eq_refl eq_refl eq_refl)
    as (out & Hout & _ & _ & Hprice & Hsize & _ & _ & Hid & _).
  exists out. split; [exact Hout|]. split; [exact Hprice|].
  split; [exact Hsize|exact Hid].
Defined.

End TickStreamSpec.

(* ===================================================================== *)
(** * Properties of the trade signal queue *)
(* ===================================================================== *)

Module TradeQueueSpec.
Import TradeQueue.

Section queue_spec.
Context {T : Type}.
Implicit Types (q : queue T) (dq out : list T).

Lemma pop_n_take (n : nat) : ∀ dq out,
  (n ≤ length dq)%nat →
  pop_n n dq out = Some (out ++ take n dq, drop n dq).
Proof.
  induction n as [|n IH]; intros dq out Hle; cbn [pop_n].
  - by rewrite take_0, drop_0, app_nil_r.
  - destruct dq as [|x rest]; [cbn in Hle; lia|].
    rewrite IH by (cbn in Hle; lia).
    by rewrite <- app_assoc.
Qed.

Lemma put_all_content (signals : list T) : ∀ q cur,
  _dq q = Ring.last_n (maxlen q) cur →
  _dq (put_all signals q) = Ring.last_n (maxlen q) (cur ++ signals)
  ∧ maxlen (put_all signals q) = maxlen q.
Proof.
  unfold put_all. induction signals as [|x signals IH]; intros q cur Hq.
  - cbn [foldl]. by rewrite app_nil_r.
  - cbn [foldl]. destruct (IH (put x q) (cur ++ [x])) as [H1 H2].
    + cbn [put _dq maxlen]. rewrite Hq.
      apply RingSpec.deque_append_last_n.
    + cbn [put maxlen] in *. by rewrite H1, H2, <- app_assoc.
Qed.

(** The signal queue is a bounded FIFO.  After any sequence of [put]
    calls on a new queue it holds the last [maxlen] signals put, oldest
    first.  [drain] never fails: it returns the oldest signals in order
    and leaves the others in place, all of them without [max_items],
    [min(max_items, len)] of them otherwise, and none for a [max_items]
    of zero or less.  [get] returns the oldest signal, or [None] on an
    empty queue, which it leaves unchanged. *)
Theorem signal_queue_fifo (capacity : nat) (signals : list T)
    (max_items : option Z) :
  let q := put_all signals (new capacity) in
  let n := match max_items with
           | None => length (_dq q)
           | Some m => Z.to_nat (Z.min m (Z.of_nat (length (_dq q))))
           end in
  _dq q = Ring.last_n capacity signals
  ∧ (len q ≤ capacity)%nat
  ∧ drain max_items q
    = Some (take n (_dq q), {| _dq := drop n (_dq q); maxlen := capacity |})
  ∧ (max_items = None → drain max_items q = Some (_dq q, new capacity))
  ∧ (∀ m, max_items = Some m → m ≤ 0 → drain max_items q = Some ([], q))
  ∧ (get q).1 = head (_dq q)
  ∧ _dq (get q).2 = tail (_dq q).
Proof.
  intros q n.
  destruct (put_all_content signals (new capacity) []) as [Hq Hm]; [done|].
  fold q in Hq, Hm. cbn [new maxlen app] in Hq, Hm.
  assert (drain max_items q
          = Some (take n (_dq q),
                  {| _dq := drop n (_dq q); maxlen := capacity |})) as Hdrain.
  { unfold drain.
    assert (Z.to_nat match max_items with
                     | None => Z.of_nat (length (_dq q))
                     | Some m => Z.min m (Z.of_nat (length (_dq q)))
                     end = n) as ->.
    { subst n. destruct max_items; [done|]. by rewrite Nat2Z.id. }
    rewrite pop_n_take; [cbn; by rewrite Hm|].
    subst n. destruct max_items; lia. }
  split; [exact Hq|]. split.
  { unfold len. rewrite Hq, RingSpec.last_n_length. lia. }
  split; [exact Hdrain|]. split; [|split].
  - intros ->. rewrite Hdrain. subst n. cbv iota.
    rewrite firstn_all, drop_all. reflexivity.
  - intros m -> Hm0. rewrite Hdrain. subst n. cbv iota.
    replace (Z.to_nat (Z.min m (Z.of_nat (length (_dq q))))) with 0%nat by lia.
    rewrite take_0, drop_0. destruct q. cbn in *. by subst.
  - unfold get. destruct (_dq q) eqn:Hdq; cbn [fst snd _dq]; by rewrite ?Hdq.
Qed.

End queue_spec.

End TradeQueueSpec.

(* ===================================================================== *)
(** * Properties of the sender thread *)
(* ===================================================================== *)

Module PumpSpec.
Import Pump.








End PumpSpec.
